(** * Password strength engine: a shallow embedding and its properties

    The engine under study is [tests/old_password_strength_script.py]:
    [detect_charsets], [shannon_entropy_bits],
    [estimated_search_space_entropy_bits], [has_repeated_runs],
    [has_sequence], [has_keyboard_pattern], [looks_like_common_password]
    and [score_password].

    Modelling choices.
    - A Python [str] is a list of Unicode code points ([N]); [len] is the
      length of that list.
    - [str.lower] and [str.strip] are fixed on the ASCII range; what they do
      on code points from 128 upwards comes from the Unicode tables of the
      Python runtime, which enter as the two Section variables below.
    - The regular expressions are written out as the explicit scans they
      perform.
    - A Python [float] is idealised as a real number; [int(x)] is truncation
      toward zero and [math.log2] is the base-2 logarithm.  The statements
      that could tell a double from a real number are made over an
      arithmetic about which nothing is assumed ([arith]), with the reals
      as one instance. *)

From Stdlib Require Import List String Ascii Bool Arith ZArith NArith Lia.
From Stdlib Require Import Permutation Reals Lra.
Import ListNotations.

Open Scope Z_scope.

(** ** Strings *)

Definition char := N.
Definition str := list char.

(** A Rocq string literal as a Python [str] of ASCII code points. *)
Definition lit (s : string) : str := map N_of_ascii (list_ascii_of_string s).

Definition len (s : str) : Z := Z.of_nat (List.length s).

Definition str_eqb (a b : str) : bool :=
  if list_eq_dec N.eq_dec a b then true else false.

Fixpoint startswith (s p : str) : bool :=
  match p, s with
  | [], _ => true
  | _ :: _, [] => false
  | x :: p', y :: s' => N.eqb x y && startswith s' p'
  end.

(** [sub in s] on Python strings: [sub] occurs as a contiguous substring. *)
Fixpoint str_in (sub s : str) : bool :=
  startswith s sub ||
  match s with
  | [] => false
  | _ :: s' => str_in sub s'
  end.

(** [x in S] for a set (or list) of strings. *)
Definition set_in (x : str) (S : list str) : bool := existsb (str_eqb x) S.

(** [s[i:j]] for [0 <= i <= j]. *)
Definition slice (s : str) (i j : nat) : str := firstn (j - i) (skipn i s).

(** ** Character classes of the regular expressions *)

Definition in_range (lo hi c : N) : bool := (N.leb lo c && N.leb c hi)%N.

Definition is_lower (c : char) : bool := in_range 97 122 c.   (* [a-z] *)
Definition is_upper (c : char) : bool := in_range 65 90 c.    (* [A-Z] *)
Definition is_digit (c : char) : bool := in_range 48 57 c.    (* [0-9] *)
Definition is_letter (c : char) : bool := is_lower c || is_upper c. (* [a-zA-Z] *)
Definition is_other (c : char) : bool :=                      (* [^a-zA-Z0-9] *)
  negb (is_lower c || is_upper c || is_digit c).

Definition newline : char := 10%N.

(** ** Static reference data *)

Definition COMMON_PASSWORDS : list str :=
  map lit ["password"; "123456"; "123456789"; "qwerty"; "letmein"; "admin";
           "password1"; "welcome"; "iloveyou"; "monkey"; "dragon";
           "football"]%string.

Definition KEYBOARD_PATTERNS : list str :=
  map lit ["qwerty"; "asdf"; "zxcv"; "poiuy"; "lkjh"; "mnbv"; "12345";
           "67890"]%string.

Definition SEQUENCES : list str :=
  map lit ["abcdefghijklmnopqrstuvwxyz"; "ABCDEFGHIJKLMNOPQRSTUVWXYZ";
           "0123456789"]%string.

(** ** detect_charsets *)

Definition detect_charsets (pw : str) : Z * list string :=
  let sets_size := 0 in
  let used := [] in
  let '(sets_size, used) :=
    if existsb is_lower pw then (sets_size + 26, used ++ ["lowercase"%string])
    else (sets_size, used) in
  let '(sets_size, used) :=
    if existsb is_upper pw then (sets_size + 26, used ++ ["uppercase"%string])
    else (sets_size, used) in
  let '(sets_size, used) :=
    if existsb is_digit pw then (sets_size + 10, used ++ ["digits"%string])
    else (sets_size, used) in
  let '(sets_size, used) :=
    if existsb is_other pw then (sets_size + 33, used ++ ["symbols"%string])
    else (sets_size, used) in
  (sets_size, used).

(** [name in used_sets]. *)
Definition name_in (name : string) (used : list string) : bool :=
  existsb (String.eqb name) used.

(** ** has_repeated_runs

    The pattern is [(.)\1{run_len-1,}] handed to [re.search]: at some start
    position a character matched by [.] (any character but the newline, as
    no flag is given) is followed by at least [run_len - 1] copies of
    itself.  [run_len] is at least 1. *)

Fixpoint copies_at (c : char) (k : nat) (s : str) : bool :=
  match k with
  | O => true
  | S k' =>
      match s with
      | [] => false
      | d :: s' => N.eqb d c && copies_at c k' s'
      end
  end.

Fixpoint has_repeated_runs_len (pw : str) (run_len : nat) : bool :=
  match pw with
  | [] => false
  | c :: rest =>
      (negb (N.eqb c newline) && copies_at c (run_len - 1) rest)
      || has_repeated_runs_len rest run_len
  end.

Definition has_repeated_runs (pw : str) : bool := has_repeated_runs_len pw 4.

(** ** The regular expressions of looks_like_common_password *)

(** [$] without flags: the end of the string, or just before a newline that
    ends the string. *)
Definition at_dollar (s : str) : bool :=
  match s with
  | [] => true
  | [c] => N.eqb c newline
  | _ => false
  end.

(** [[0-9]{1,k}$] against [s], for the digits still allowed. *)
Fixpoint digits_upto_dollar (k : nat) (s : str) : bool :=
  match k with
  | O => false
  | S k' =>
      match s with
      | [] => false
      | c :: s' => is_digit c && (at_dollar s' || digits_upto_dollar k' s')
      end
  end.

(** [[a-zA-Z]*[0-9]{1,4}$] against [s]: the letter and digit classes are
    disjoint, so the greedy letter loop stops at the first non-letter. *)
Fixpoint letters_then_digits (s : str) : bool :=
  match s with
  | [] => false
  | c :: s' =>
      if is_letter c then letters_then_digits s'
      else digits_upto_dollar 4 s
  end.

(** [re.match(r"^[a-zA-Z]+[0-9]{1,4}$", s) is not None]. *)
Definition match_letters_digits (s : str) : bool :=
  match s with
  | [] => false
  | c :: s' => is_letter c && letters_then_digits s'
  end.

(** [[0-9]+$] against [s]: the rest after the match, when there is one. *)
Fixpoint digits_dollar (s : str) : option str :=
  match s with
  | [] => None
  | c :: s' =>
      if is_digit c then
        if at_dollar s' then Some s' else digits_dollar s'
      else None
  end.

(** [re.sub(r"[0-9]+$", "", s)]: the leftmost match is replaced; what is
    left after it (nothing, or the final newline) holds no further match. *)
Fixpoint sub_trailing_digits (s : str) : str :=
  match s with
  | [] => []
  | c :: s' =>
      match digits_dollar s with
      | Some rest => rest
      | None => c :: sub_trailing_digits s'
      end
  end.

(** [str.maketrans({"@": "a", "0": "o", "1": "i", "!": "i", "$": "s",
    "3": "e"})] as a map on code points. *)
Definition leet_map (c : char) : char :=
  (if c =? 64 then 97          (* @ -> a *)
   else if c =? 48 then 111    (* 0 -> o *)
   else if c =? 49 then 105    (* 1 -> i *)
   else if c =? 33 then 105    (* ! -> i *)
   else if c =? 36 then 115    (* $ -> s *)
   else if c =? 51 then 101    (* 3 -> e *)
   else c)%N.

Definition translate (table : char -> char) (s : str) : str := map table s.

(** ** Numbers

    [math.log2], Python's two-argument [min] (the first argument unless the
    second is strictly smaller) and [int] (truncation toward zero). *)

Definition log2 (x : R) : R := (ln x / ln 2)%R.

Definition py_min (a b : R) : R := if Rlt_dec b a then b else a.

Definition py_int (x : R) : Z :=
  if Rle_dec 0 x then Int_part x else - Int_part (- x).

(** ** shannon_entropy_bits

    The dictionary [freq] keeps its keys in insertion order: an association
    list, a new key going to the end. *)

Fixpoint freq_incr (ch : char) (freq : list (char * nat)) : list (char * nat) :=
  match freq with
  | [] => [(ch, 1%nat)]
  | (k, v) :: rest =>
      if N.eqb k ch then (k, S v) :: rest else (k, v) :: freq_incr ch rest
  end.

Definition char_freq (pw : str) : list (char * nat) :=
  fold_left (fun freq ch => freq_incr ch freq) pw [].

Definition shannon_entropy_bits (pw : str) : R :=
  match pw with
  | [] => 0%R
  | _ =>
      let freq := char_freq pw in
      let length := INR (List.length pw) in
      let entropy :=
        fold_left
          (fun entropy count =>
             let p := (INR count / length)%R in
             (entropy - p * log2 p)%R)
          (map snd freq) 0%R in
      (entropy * length)%R
  end.

(** ** estimated_search_space_entropy_bits *)

Definition estimated_search_space_entropy_bits (pw : str) : R :=
  let '(charset_size, _) := detect_charsets pw in
  if charset_size =? 0 then 0%R
  else (INR (List.length pw) * log2 (IZR charset_size))%R.

(** ** StrengthResult *)

Record StrengthResult : Type := mkStrengthResult {
  score : Z;
  label : string;
  entropy_bits : R;
  feedback : list string
}.

(** ** The parts of the scoring policy that read no Unicode table *)

Definition length_points (n : Z) : Z :=
  if n <? 8 then 5 else if n <? 12 then 20 else if n <? 16 then 32 else 40.

Definition length_feedback (n : Z) : list string :=
  if n <? 8 then ["Too short: aim for at least 12-16 characters."%string]
  else if n <? 12 then ["Decent length, but 12-16+ is better."%string]
  else [].

Definition used_sets (pw : str) : list string := snd (detect_charsets pw).

Definition variety_points (pw : str) : Z :=
  Z.min 20 (Z.of_nat (List.length (used_sets pw)) * 5).

Definition variety_feedback (used : list string) : list string :=
  (if name_in "lowercase" used then []
   else ["add lowercase letters to increase variety."%string]) ++
  (if name_in "uppercase" used then []
   else ["Add uppercase letters to increase variety."%string]) ++
  (if name_in "digits" used then []
   else ["Add digits to increase variety."%string]) ++
  (if name_in "symbols" used then []
   else ["Add symbols(e.g., !@#$) to increase variety."%string]).

Definition combined_entropy (pw : str) : R :=
  py_min (shannon_entropy_bits pw) (estimated_search_space_entropy_bits pw).

Definition entropy_points (e : R) : Z := py_int (py_min 25 (e / 80 * 25)).

Definition clamp (x : Z) : Z := Z.max 0 (Z.min 100 x).

Definition common_feedback : string :=
  "This looks like a common password or easy variation-avoid it.".
Definition repeated_feedback : string :=
  "Avoid repeated characters (e.g., aaaa, 1111).".
Definition keyboard_feedback : string :=
  "Avoid keyboard patterns (e.g., qwerty, asdf).".
Definition great_feedback : string :=
  "Great password. Consider using a password manager to generate/store unique passwords.".

Definition penalty_of (common repeated keyboard : bool) : Z :=
  (if common then 25 else 0) + (if repeated then 8 else 0)
  + (if keyboard then 6 else 0).

Definition penalty_feedback (common repeated keyboard : bool) : list string :=
  (if common then [common_feedback] else []) ++
  (if repeated then [repeated_feedback] else []) ++
  (if keyboard then [keyboard_feedback] else []).

Definition final_label (s : Z) : string :=
  if s <? 80 then "Strong"%string else "Very Strong"%string.

Definition finish_feedback (fb : list string) (s : Z) : list string :=
  match fb with
  | [] => if 80 <=? s then [great_feedback] else []
  | _ => fb
  end.

(** ** The character classes of a password, one flag per class *)

Definition has_lower (pw : str) : bool := existsb is_lower pw.
Definition has_upper (pw : str) : bool := existsb is_upper pw.
Definition has_digit (pw : str) : bool := existsb is_digit pw.
Definition has_other (pw : str) : bool := existsb is_other pw.

(** The alphabet size of step 1: the sum over the classes present. *)
Definition alphabet_size (pw : str) : Z :=
  (if has_lower pw then 26 else 0) + (if has_upper pw then 26 else 0)
  + (if has_digit pw then 10 else 0) + (if has_other pw then 33 else 0).

Definition class_count (pw : str) : Z :=
  Z.b2z (has_lower pw) + Z.b2z (has_upper pw) + Z.b2z (has_digit pw)
  + Z.b2z (has_other pw).

(** ** Notions used to reason about the entropy estimates *)

(** [freq.get(ch, 0)]. *)
Fixpoint freq_get (ch : char) (freq : list (char * nat)) : nat :=
  match freq with
  | [] => 0%nat
  | (k, v) :: rest => if N.eqb k ch then v else freq_get ch rest
  end.

Fixpoint sum_R (f : nat -> R) (counts : list nat) : R :=
  match counts with
  | [] => 0%R
  | k :: rest => (f k + sum_R f rest)%R
  end.

(** [k * log2 k], with value 0 at [k = 0]. *)
Definition xlog2 (k : nat) : R := (INR k * log2 (INR k))%R.

(** ** Unicode tables for running the engine on ASCII inputs

    A runtime that maps every non-ASCII character to itself under
    [str.lower] and has no non-ASCII white space. *)

Definition plain_lower : str -> nat -> str :=
  fun s i => match nth_error s i with Some c => [c] | None => [] end.

Definition plain_isspace : char -> bool := fun _ => false.

(** ** Runs

    [has_run c n pw]: the character [c] occurs [n] times in a row somewhere
    in [pw]. *)

Definition has_run (c : char) (n : nat) (pw : str) : Prop :=
  exists pre post : str, pw = pre ++ repeat c n ++ post.

(** ** The size each class name stands for *)

Definition class_size (name : string) : Z :=
  if String.eqb name "lowercase" then 26
  else if String.eqb name "uppercase" then 26
  else if String.eqb name "digits" then 10
  else if String.eqb name "symbols" then 33
  else 0.

Definition class_names : list string :=
  ["lowercase"; "uppercase"; "digits"; "symbols"]%string.

(** [sub] keeps some entries of [full], in the order of [full]. *)
Fixpoint subsequence (sub full : list string) : bool :=
  match sub, full with
  | [], _ => true
  | _ :: _, [] => false
  | x :: sub', y :: full' =>
      if String.eqb x y then subsequence sub' full' else subsequence sub full'
  end.

(** ** Runs of four neighbours in the alphabet or among the digits

    [ascending_run a] is the character [a] and its three successors;
    [run_start a] says that all four are lowercase letters ([a] from 'a' to
    'w') or all four are digits ([a] from '0' to '6'). *)

Definition ascending_run (a : char) : str := [a; a + 1; a + 2; a + 3]%N.

Definition run_start (a : char) : bool :=
  in_range 97 119 a || in_range 48 54 a.

Definition is_step_run (w : str) : bool :=
  match w with
  | [a; b; c; d] =>
      (run_start a && N.eqb b (a + 1) && N.eqb c (a + 2) && N.eqb d (a + 3))
      || (run_start d && N.eqb c (d + 1) && N.eqb b (d + 2) && N.eqb a (d + 3))
  | _ => false
  end.

Definition run_starts : list char :=
  map N.of_nat (List.seq 97 23 ++ List.seq 48 7).

(** The slices [s[i:i+n]] that the loops of [has_sequence] try. *)
Definition chunks_of (s : str) (n : nat) : list str :=
  map (fun i => slice s i (i + n)) (List.seq 0 (List.length s + 1 - n)).

(** ** The engine over any floating-point arithmetic

    The real numbers idealise Python's floats.  Where a statement must hold
    of the floats themselves, the numeric part of the source is written
    once more over an arithmetic that is left open: a type of numbers with
    the operations the source uses, about which nothing is assumed.  Every
    theorem over an [arith] holds of the IEEE doubles of the Python runtime
    in particular, and of the reals ([real_arith]) as well. *)

Record arith : Type := mk_arith {
  num : Type;                      (* float *)
  f_zero : num;                    (* 0.0 *)
  f_of_int : Z -> num;             (* an int where a float is expected *)
  f_true_div : Z -> Z -> num;      (* n / m on two ints *)
  f_sub : num -> num -> num;       (* x - y *)
  f_mul : num -> num -> num;       (* x * y *)
  f_div : num -> num -> num;       (* x / y *)
  f_log2 : num -> num;             (* math.log2(x) *)
  f_lt : num -> num -> bool;       (* x < y *)
  f_int : num -> Z                 (* int(x) *)
}.

Definition real_arith : arith :=
  mk_arith R 0%R IZR (fun n m => (IZR n / IZR m)%R) Rminus Rmult Rdiv log2
           (fun x y => if Rlt_dec x y then true else false) py_int.

(** [min(x, y)]: the first argument unless the second is smaller. *)
Definition py_min_in (a : arith) (x y : num a) : num a :=
  if f_lt a y x then y else x.

Definition shannon_entropy_bits_in (a : arith) (pw : str) : num a :=
  match pw with
  | [] => f_zero a
  | _ =>
      let freq := char_freq pw in
      let length := len pw in
      let entropy :=
        fold_left
          (fun entropy count =>
             let p := f_true_div a (Z.of_nat count) length in
             f_sub a entropy (f_mul a p (f_log2 a p)))
          (map snd freq) (f_zero a) in
      f_mul a entropy (f_of_int a length)
  end.

Definition estimated_search_space_entropy_bits_in (a : arith) (pw : str)
  : num a :=
  let '(charset_size, _) := detect_charsets pw in
  if charset_size =? 0 then f_zero a
  else f_mul a (f_of_int a (len pw)) (f_log2 a (f_of_int a charset_size)).

Record StrengthResultIn (a : arith) : Type := mkStrengthResultIn {
  score_in : Z;
  label_in : string;
  entropy_bits_in : num a;
  feedback_in : list string
}.

Arguments mkStrengthResultIn {a} _ _ _ _.
Arguments score_in {a} _.
Arguments label_in {a} _.
Arguments entropy_bits_in {a} _.
Arguments feedback_in {a} _.

Definition combined_entropy_in (a : arith) (pw : str) : num a :=
  py_min_in a (shannon_entropy_bits_in a pw)
            (estimated_search_space_entropy_bits_in a pw).

(** [int(min(25, (e / 80.0) * 25))]: [min] hands back the int 25 unless the
    float is smaller. *)
Definition entropy_points_in (a : arith) (e : num a) : Z :=
  let x := f_mul a (f_div a e (f_of_int a 80)) (f_of_int a 25) in
  if f_lt a x (f_of_int a 25) then f_int a x else 25.

(** ** The two estimates in the words of the specification

    The distinct characters of a password, in the order in which they first
    occur; the frequency-based estimate, 0 minus [p * log2 p] for each of
    them in turn with [p] the count over the length, times the length; the
    search-space estimate, the length times [log2] of the alphabet size,
    and 0 when no class is detected. *)




(** ** The functions that depend on the Unicode tables *)

Section Engine.

(** [unicode_lower s i] is what [str.lower] puts for the character at
    position [i] of [s] when that character is not ASCII (one character for
    most, two for U+0130; the capital sigma depends on its position in
    [s]). *)
Variable unicode_lower : str -> nat -> str.

(** [unicode_isspace c] is [str.isspace] on a code point that is not ASCII. *)
Variable unicode_isspace : char -> bool.

Definition ascii_lower (c : char) : char :=
  if is_upper c then (c + 32)%N else c.

Fixpoint lower_from (whole : str) (i : nat) (s : str) : str :=
  match s with
  | [] => []
  | c :: s' =>
      (if N.ltb c 128 then [ascii_lower c] else unicode_lower whole i)
      ++ lower_from whole (S i) s'
  end.

(** [s.lower()]. *)
Definition lower (s : str) : str := lower_from s 0 s.

(** [c.isspace()]: in ASCII, the characters 9 to 13, 28 to 31 and 32. *)
Definition isspace (c : char) : bool :=
  if N.ltb c 128 then in_range 9 13 c || in_range 28 31 c || N.eqb c 32
  else unicode_isspace c.

Fixpoint lstrip (s : str) : str :=
  match s with
  | [] => []
  | c :: s' => if isspace c then lstrip s' else s
  end.

Definition rstrip (s : str) : str := rev (lstrip (rev s)).

(** [s.strip()]. *)
Definition strip (s : str) : str := rstrip (lstrip s).

(** ** has_sequence *)

Definition has_sequence_len (pw : str) (seq_len : nat) : bool :=
  let lower_pw := lower pw in
  existsb
    (fun seq =>
       let seq_lower := lower seq in
       existsb
         (fun i => str_in (slice seq_lower i (i + seq_len)) lower_pw)
         (List.seq 0 (List.length seq_lower + 1 - seq_len))
       ||
       let rev_seq := rev seq_lower in
       existsb
         (fun i => str_in (slice rev_seq i (i + seq_len)) lower_pw)
         (List.seq 0 (List.length rev_seq + 1 - seq_len)))
    SEQUENCES.

Definition has_sequence (pw : str) : bool := has_sequence_len pw 4.

(** ** has_keyboard_pattern *)

Definition has_keyboard_pattern_len (pw : str) (min_len : nat) : bool :=
  let lower_pw := lower pw in
  existsb
    (fun pat =>
       (* the generator's filter, then the truth value of [pat] itself *)
       (Nat.leb min_len (List.length pat) && str_in pat lower_pw)
       && negb (str_eqb pat []))
    KEYBOARD_PATTERNS.

Definition has_keyboard_pattern (pw : str) : bool :=
  has_keyboard_pattern_len pw 4.

(** ** looks_like_common_password *)

Definition looks_like_common_password (pw : str) : bool :=
  let raw := strip pw in
  let lower_raw := lower raw in
  if set_in lower_raw COMMON_PASSWORDS then true
  else if match_letters_digits raw
          && set_in (lower (sub_trailing_digits raw)) COMMON_PASSWORDS
  then true
  else
    let normalized := translate leet_map lower_raw in
    if set_in normalized COMMON_PASSWORDS then true else false.

(** ** score_password *)

Definition score_password (pw : str) : StrengthResult :=
  let feedback : list string := [] in
  match pw with
  | [] =>
      mkStrengthResult 0 "Very Weak" 0%R ["Password is empty"%string]
  | _ =>
      let length := len pw in
      (* 1) entropy estimates *)
      let shannon_bits := shannon_entropy_bits pw in
      let space_bits := estimated_search_space_entropy_bits pw in
      let entropy_bits := py_min shannon_bits space_bits in
      (* 2) length scoring *)
      let score := 0 in
      let '(score, feedback) :=
        if length <? 8 then
          (score + 5,
           feedback ++ ["Too short: aim for at least 12-16 characters."%string])
        else if length <? 12 then
          (score + 20,
           feedback ++ ["Decent length, but 12-16+ is better."%string])
        else if length <? 16 then (score + 32, feedback)
        else (score + 40, feedback) in
      (* 3) charset variety *)
      let '(charset_size, used_sets) := detect_charsets pw in
      let score := score + Z.min 20 (Z.of_nat (List.length used_sets) * 5) in
      let feedback :=
        if negb (name_in "lowercase" used_sets) then
          feedback ++ ["add lowercase letters to increase variety."%string]
        else feedback in
      let feedback :=
        if negb (name_in "uppercase" used_sets) then
          feedback ++ ["Add uppercase letters to increase variety."%string]
        else feedback in
      let feedback :=
        if negb (name_in "digits" used_sets) then
          feedback ++ ["Add digits to increase variety."%string]
        else feedback in
      let feedback :=
        if negb (name_in "symbols" used_sets) then
          feedback ++ ["Add symbols(e.g., !@#$) to increase variety."%string]
        else feedback in
      (* 4) entropy contribution *)
      let score := score + py_int (py_min 25 (entropy_bits / 80 * 25)) in
      (* 5) penalties *)
      let penalties := 0 in
      let '(penalties, feedback) :=
        if looks_like_common_password pw then
          (penalties + 25,
           feedback ++
           ["This looks like a common password or easy variation-avoid it."%string])
        else (penalties, feedback) in
      let '(penalties, feedback) :=
        if has_repeated_runs pw then
          (penalties + 8,
           feedback ++ ["Avoid repeated characters (e.g., aaaa, 1111)."%string])
        else (penalties, feedback) in
      let '(penalties, feedback) :=
        if has_keyboard_pattern pw then
          (penalties + 6,
           feedback ++ ["Avoid keyboard patterns (e.g., qwerty, asdf)."%string])
        else (penalties, feedback) in
      let score := score - penalties in
      (* clamp *)
      let score := Z.max 0 (Z.min 100 score) in
      (* 6) label: four successive statements, the first three without
         an alternative; [None] is the variable not yet bound *)
      let label : option string := None in
      let label := if score <? 20 then Some "Very Weak"%string else label in
      let label := if score <? 40 then Some "Weak"%string else label in
      let label := if score <? 60 then Some "fair"%string else label in
      let label := if score <? 80 then "Strong"%string else "Very Strong"%string in
      (* 7) feedback *)
      let feedback :=
        if (match feedback with [] => true | _ => false end) && (80 <=? score)
        then
          feedback ++
          ["Great password. Consider using a password manager to generate/store unique passwords."%string]
        else feedback in
      mkStrengthResult score label entropy_bits feedback
  end.

(** ** The scoring policy, step by step

    The contributions of [score_password] named one by one; the lemma
    [score_password_unfold] below shows that the function computes exactly
    these. *)

Definition penalties (pw : str) : Z :=
  penalty_of (looks_like_common_password pw) (has_repeated_runs pw)
             (has_keyboard_pattern pw).

(** The points before the clamp. *)
Definition raw_score (pw : str) : Z :=
  length_points (len pw) + variety_points pw
  + entropy_points (combined_entropy pw) - penalties pw.

(** The feedback lines of steps 2 to 5, in the order of the checks. *)
Definition step_feedback (pw : str) : list string :=
  length_feedback (len pw) ++ variety_feedback (used_sets pw) ++
  penalty_feedback (looks_like_common_password pw) (has_repeated_runs pw)
                   (has_keyboard_pattern pw).

(** Every feedback line the source can append. *)
Definition feedback_lines : list string :=
  ["Password is empty";
   "Too short: aim for at least 12-16 characters.";
   "Decent length, but 12-16+ is better.";
   "add lowercase letters to increase variety.";
   "Add uppercase letters to increase variety.";
   "Add digits to increase variety.";
   "Add symbols(e.g., !@#$) to increase variety.";
   common_feedback; repeated_feedback; keyboard_feedback;
   great_feedback]%string.

(** ** Common-password matches in the words of the specification

    [trailing_digit_variant s]: [s] is one or more letters followed by one
    to four digits, and the lowercased letters are a common password. *)

Definition trailing_digit_variant (s : str) : Prop :=
  exists letters digits : str,
    s = letters ++ digits /\ letters <> [] /\
    forallb is_letter letters = true /\ forallb is_digit digits = true /\
    (1 <= List.length digits <= 4)%nat /\
    set_in (lower letters) COMMON_PASSWORDS = true.

(** The three ways to match, all read on the same string [t]. *)
Definition common_match (t : str) : Prop :=
  set_in (lower t) COMMON_PASSWORDS = true
  \/ trailing_digit_variant t
  \/ set_in (translate leet_map (lower t)) COMMON_PASSWORDS = true.

(** The three ways to match with only the first read on the trimmed
    password and the other two on the password as given. *)
Definition common_match_untrimmed (pw : str) : Prop :=
  set_in (lower (strip pw)) COMMON_PASSWORDS = true
  \/ trailing_digit_variant pw
  \/ set_in (translate leet_map (lower pw)) COMMON_PASSWORDS = true.

(** All the chunks [has_sequence] looks for, over the three sequences and
    their reverses. *)
Definition sequence_chunks (seq_len : nat) : list str :=
  flat_map
    (fun seq => chunks_of (lower seq) seq_len
                ++ chunks_of (rev (lower seq)) seq_len)
    SEQUENCES.

(** ** score_password over any arithmetic *)

Definition score_password_in (a : arith) (pw : str) : StrengthResultIn a :=
  let feedback : list string := [] in
  match pw with
  | [] =>
      mkStrengthResultIn 0 "Very Weak" (f_zero a) ["Password is empty"%string]
  | _ =>
      let length := len pw in
      (* 1) entropy estimates *)
      let shannon_bits := shannon_entropy_bits_in a pw in
      let space_bits := estimated_search_space_entropy_bits_in a pw in
      let entropy_bits := py_min_in a shannon_bits space_bits in
      (* 2) length scoring *)
      let score := 0 in
      let '(score, feedback) :=
        if length <? 8 then
          (score + 5,
           feedback ++ ["Too short: aim for at least 12-16 characters."%string])
        else if length <? 12 then
          (score + 20,
           feedback ++ ["Decent length, but 12-16+ is better."%string])
        else if length <? 16 then (score + 32, feedback)
        else (score + 40, feedback) in
      (* 3) charset variety *)
      let '(charset_size, used_sets) := detect_charsets pw in
      let score := score + Z.min 20 (Z.of_nat (List.length used_sets) * 5) in
      let feedback :=
        if negb (name_in "lowercase" used_sets) then
          feedback ++ ["add lowercase letters to increase variety."%string]
        else feedback in
      let feedback :=
        if negb (name_in "uppercase" used_sets) then
          feedback ++ ["Add uppercase letters to increase variety."%string]
        else feedback in
      let feedback :=
        if negb (name_in "digits" used_sets) then
          feedback ++ ["Add digits to increase variety."%string]
        else feedback in
      let feedback :=
        if negb (name_in "symbols" used_sets) then
          feedback ++ ["Add symbols(e.g., !@#$) to increase variety."%string]
        else feedback in
      (* 4) entropy contribution *)
      let score :=
        score +
        (let x := f_mul a (f_div a entropy_bits (f_of_int a 80))
                        (f_of_int a 25) in
         if f_lt a x (f_of_int a 25) then f_int a x else 25) in
      (* 5) penalties *)
      let penalties := 0 in
      let '(penalties, feedback) :=
        if looks_like_common_password pw then
          (penalties + 25,
           feedback ++
           ["This looks like a common password or easy variation-avoid it."%string])
        else (penalties, feedback) in
      let '(penalties, feedback) :=
        if has_repeated_runs pw then
          (penalties + 8,
           feedback ++ ["Avoid repeated characters (e.g., aaaa, 1111)."%string])
        else (penalties, feedback) in
      let '(penalties, feedback) :=
        if has_keyboard_pattern pw then
          (penalties + 6,
           feedback ++ ["Avoid keyboard patterns (e.g., qwerty, asdf)."%string])
        else (penalties, feedback) in
      let score := score - penalties in
      (* clamp *)
      let score := Z.max 0 (Z.min 100 score) in
      (* 6) label *)
      let label : option string := None in
      let label := if score <? 20 then Some "Very Weak"%string else label in
      let label := if score <? 40 then Some "Weak"%string else label in
      let label := if score <? 60 then Some "fair"%string else label in
      let label := if score <? 80 then "Strong"%string else "Very Strong"%string in
      (* 7) feedback *)
      let feedback :=
        if (match feedback with [] => true | _ => false end) && (80 <=? score)
        then
          feedback ++
          ["Great password. Consider using a password manager to generate/store unique passwords."%string]
        else feedback in
      mkStrengthResultIn score label entropy_bits feedback
  end.

(** The points before the clamp, over an arithmetic. *)
Definition raw_score_in (a : arith) (pw : str) : Z :=
  length_points (len pw) + variety_points pw
  + entropy_points_in a (combined_entropy_in a pw) - penalties pw.

(** ** Proof steps for the feedback lines

    [other_line] closes a case in which two different feedback lines would
    have to be equal; [pick] finds the disjunct that holds. *)

Ltac other_line :=
  repeat match goal with
  | H : _ /\ _ |- _ => destruct H
  | H : _ \/ _ |- _ => destruct H
  | H : False |- _ => destruct H
  | H : @eq string _ _ |- _ => vm_compute in H; discriminate H
  end.

Ltac pick :=
  match goal with
  | |- _ \/ _ => (left; pick) || (right; pick)
  | |- _ /\ _ => split; pick
  | |- _ => solve [reflexivity | assumption | lia | congruence]
  end.

(** * Properties *)

(** ** Numbers *)

Lemma py_min_Rmin (a b : R) : py_min a b = Rmin a b.
Proof.
  unfold py_min, Rmin.
  destruct (Rlt_dec b a), (Rle_dec a b); lra.
Qed.

Lemma py_min_mono (a b a' b' : R) :
  (a <= a')%R -> (b <= b')%R -> (py_min a b <= py_min a' b')%R.
Proof.
  intros Ha Hb. rewrite !py_min_Rmin.
  apply Rmin_glb.
  - eapply Rle_trans; [apply Rmin_l|exact Ha].
  - eapply Rle_trans; [apply Rmin_r|exact Hb].
Qed.

Lemma py_min_nonneg (a b : R) : (0 <= a)%R -> (0 <= b)%R -> (0 <= py_min a b)%R.
Proof. intros Ha Hb. rewrite py_min_Rmin. now apply Rmin_glb. Qed.

Lemma Int_part_mono (x y : R) : (x <= y)%R -> Int_part x <= Int_part y.
Proof.
  intros Hxy.
  destruct (base_Int_part x) as [Hx1 _], (base_Int_part y) as [_ Hy2].
  assert (H : (IZR (Int_part x) < IZR (Int_part y + 1))%R)
    by (rewrite plus_IZR; lra).
  apply lt_IZR in H. lia.
Qed.

Lemma Int_part_IZR (z : Z) : Int_part (IZR z) = z.
Proof. symmetry. apply Int_part_spec. lra. Qed.

Lemma py_int_nonneg (x : R) : (0 <= x)%R -> py_int x = Int_part x.
Proof. intros Hx. unfold py_int. destruct (Rle_dec 0 x); [reflexivity|lra]. Qed.

Lemma py_int_IZR (z : Z) : py_int (IZR z) = z.
Proof.
  unfold py_int. destruct (Rle_dec 0 (IZR z)).
  - apply Int_part_IZR.
  - rewrite <- opp_IZR, Int_part_IZR. lia.
Qed.

(** [int] is monotone. *)
Lemma py_int_mono (x y : R) : (x <= y)%R -> py_int x <= py_int y.
Proof.
  intros Hxy. unfold py_int.
  destruct (Rle_dec 0 x) as [Hx|Hx], (Rle_dec 0 y) as [Hy|Hy]; try lra.
  - now apply Int_part_mono.
  - assert (H0 : 0 <= Int_part y)
      by (rewrite <- (Int_part_IZR 0); now apply Int_part_mono).
    assert (H1 : 0 <= Int_part (- x))
      by (rewrite <- (Int_part_IZR 0); apply Int_part_mono; lra).
    lia.
  - assert (H : Int_part (- y) <= Int_part (- x))
      by (apply Int_part_mono; lra).
    lia.
Qed.

Lemma entropy_points_bounds (e : R) : (0 <= e)%R -> 0 <= entropy_points e <= 25.
Proof.
  intros He. unfold entropy_points.
  assert (H0 : (0 <= py_min 25 (e / 80 * 25))%R)
    by (apply py_min_nonneg; lra).
  assert (H1 : (py_min 25 (e / 80 * 25) <= 25)%R)
    by (rewrite py_min_Rmin; apply Rmin_l).
  apply py_int_mono in H0, H1. rewrite py_int_IZR in H0, H1. lia.
Qed.

Lemma entropy_points_mono (e e' : R) :
  (e <= e')%R -> entropy_points e <= entropy_points e'.
Proof.
  intros H. unfold entropy_points. apply py_int_mono, py_min_mono; lra.
Qed.

Lemma ln2_pos : (0 < ln 2)%R.
Proof. rewrite <- ln_1. apply ln_increasing; lra. Qed.

Lemma log2_1 : log2 1 = 0%R.
Proof. unfold log2. rewrite ln_1. lra. Qed.

Lemma log2_mono (x y : R) : (0 < x)%R -> (x <= y)%R -> (log2 x <= log2 y)%R.
Proof.
  intros Hx Hxy. unfold log2.
  apply Rmult_le_compat_r; [left; apply Rinv_0_lt_compat, ln2_pos|].
  destruct Hxy as [Hlt | ->]; [left; now apply ln_increasing|right; reflexivity].
Qed.

Lemma log2_nonneg (x : R) : (1 <= x)%R -> (0 <= log2 x)%R.
Proof. intros Hx. rewrite <- log2_1. apply log2_mono; lra. Qed.

Lemma log2_div (x y : R) :
  (0 < x)%R -> (0 < y)%R -> log2 (x / y) = (log2 x - log2 y)%R.
Proof.
  intros Hx Hy. unfold log2.
  replace (x / y)%R with (x * / y)%R by reflexivity.
  rewrite ln_mult, ln_Rinv; auto using Rinv_0_lt_compat.
  pose proof ln2_pos. field. lra.
Qed.

(** ** The frequency table *)

Lemma char_freq_snoc (pw : str) (c : char) :
  char_freq (pw ++ [c]) = freq_incr c (char_freq pw).
Proof. unfold char_freq. now rewrite fold_left_app. Qed.

Lemma list_sum_cons' (k : nat) (ks : list nat) :
  list_sum (k :: ks) = (k + list_sum ks)%nat.
Proof. reflexivity. Qed.

Lemma freq_incr_total (c : char) (f : list (char * nat)) :
  list_sum (map snd (freq_incr c f)) = S (list_sum (map snd f)).
Proof.
  induction f as [|[k v] f IH]; [reflexivity|].
  cbn [freq_incr]. destruct (N.eqb k c); cbn [map snd];
    rewrite !list_sum_cons'; [|rewrite IH]; lia.
Qed.

Lemma freq_incr_positive (c : char) (f : list (char * nat)) :
  Forall (fun k => (1 <= k)%nat) (map snd f) ->
  Forall (fun k => (1 <= k)%nat) (map snd (freq_incr c f)).
Proof.
  induction f as [|[k v] f IH]; cbn; intros H.
  - repeat constructor.
  - inversion H; subst. destruct (N.eqb k c); cbn; constructor; auto.
Qed.

Lemma freq_get_le_total (c : char) (f : list (char * nat)) :
  (freq_get c f <= list_sum (map snd f))%nat.
Proof.
  induction f as [|[k v] f IH]; [cbn; lia|].
  cbn [freq_get map snd]. rewrite list_sum_cons'.
  destruct (N.eqb k c); lia.
Qed.

Lemma freq_incr_sum (g : nat -> R) (c : char) (f : list (char * nat)) :
  g 0%nat = 0%R ->
  sum_R g (map snd (freq_incr c f)) =
  (sum_R g (map snd f) + (g (S (freq_get c f)) - g (freq_get c f)))%R.
Proof.
  intros Hg. induction f as [|[k v] f IH]; cbn.
  - rewrite Hg. lra.
  - destruct (N.eqb k c); cbn; [|rewrite IH]; lra.
Qed.

Lemma char_freq_total (pw : str) :
  list_sum (map snd (char_freq pw)) = List.length pw.
Proof.
  induction pw as [|c pw IH] using rev_ind; [reflexivity|].
  rewrite char_freq_snoc, freq_incr_total, IH, length_app. cbn. lia.
Qed.

Lemma char_freq_positive (pw : str) :
  Forall (fun k => (1 <= k)%nat) (map snd (char_freq pw)).
Proof.
  induction pw as [|c pw IH] using rev_ind; [constructor|].
  rewrite char_freq_snoc. now apply freq_incr_positive.
Qed.

(** ** The frequency-based estimate in closed form *)

Lemma fold_entropy (t : nat -> R) (counts : list nat) (e0 : R) :
  fold_left (fun entropy count => (entropy - t count)%R) counts e0 =
  (e0 - sum_R t counts)%R.
Proof.
  revert e0. induction counts as [|k ks IH]; intros e0; cbn.
  - lra.
  - rewrite IH. lra.
Qed.

Lemma xlog2_0 : xlog2 0 = 0%R.
Proof. unfold xlog2. cbn. lra. Qed.

Lemma xlog2_1 : xlog2 1 = 0%R.
Proof. unfold xlog2. cbn. rewrite log2_1. lra. Qed.

Lemma sum_plogp (n : R) (counts : list nat) :
  (0 < n)%R -> Forall (fun k => (1 <= k)%nat) counts ->
  (sum_R (fun k => INR k / n * log2 (INR k / n)) counts * n)%R =
  (sum_R xlog2 counts - INR (list_sum counts) * log2 n)%R.
Proof.
  intros Hn H. induction H as [|k ks Hk _ IH]; cbn [sum_R].
  - cbn. lra.
  - rewrite list_sum_cons', plus_INR, Rmult_plus_distr_r, IH.
    assert (Hk' : (0 < INR k)%R) by (apply lt_0_INR; lia).
    rewrite log2_div by assumption. unfold xlog2. field. lra.
Qed.

(** [shannon_entropy_bits pw = n log2 n - sum over the counts k of k log2 k]. *)
Lemma shannon_closed_form (pw : str) :
  shannon_entropy_bits pw =
  (xlog2 (List.length pw) - sum_R xlog2 (map snd (char_freq pw)))%R.
Proof.
  destruct pw as [|c pw'].
  - cbn. rewrite xlog2_0. lra.
  - unfold shannon_entropy_bits. cbv beta iota zeta.
    set (pw := c :: pw').
    assert (Hn : (0 < INR (List.length pw))%R) by (apply lt_0_INR; cbn; lia).
    rewrite (fold_entropy
               (fun k => (INR k / INR (List.length pw)
                          * log2 (INR k / INR (List.length pw)))%R)).
    rewrite Rminus_0_l, <- Ropp_mult_distr_l, sum_plogp
      by auto using char_freq_positive.
    rewrite char_freq_total. unfold xlog2 at 2. lra.
Qed.

(** ** Growth of [k log2 k] *)

Lemma ln_le_pred (x : R) : (0 < x)%R -> (ln x <= x - 1)%R.
Proof.
  intros Hx.
  pose proof (exp_ineq1_le (x - 1)) as H.
  replace (1 + (x - 1))%R with x in H by ring.
  destruct H as [H|H].
  - left. rewrite <- (ln_exp (x - 1)). now apply ln_increasing.
  - right. rewrite H at 1. apply ln_exp.
Qed.

Lemma ln_diff_le (a b : R) :
  (0 < a)%R -> (0 < b)%R -> (b * (ln a - ln b) <= a - b)%R.
Proof.
  intros Ha Hb.
  assert (Hab : (0 < a / b)%R) by now apply Rdiv_lt_0_compat.
  pose proof (ln_le_pred _ Hab) as H.
  replace (a / b)%R with (a * / b)%R in H by reflexivity.
  rewrite ln_mult, ln_Rinv in H; auto using Rinv_0_lt_compat.
  apply (Rmult_le_compat_l b) in H; [|lra].
  replace (b * (a * / b - 1))%R with (a - b)%R in H by (field; lra).
  lra.
Qed.

(** The increments of [x ln x] grow: a discrete form of convexity. *)
Lemma xlnx_increment (x : R) :
  (0 < x)%R ->
  ((x + 1) * ln (x + 1) - x * ln x
   <= (x + 2) * ln (x + 2) - (x + 1) * ln (x + 1))%R.
Proof.
  intros Hx.
  pose proof (ln_diff_le (x + 1) (x + 2)) as H1.
  pose proof (ln_diff_le (x + 1) x) as H2.
  lapply H1; [clear H1; intros H1|lra].
  lapply H1; [clear H1; intros H1|lra].
  lapply H2; [clear H2; intros H2|lra].
  lapply H2; [clear H2; intros H2|lra].
  lra.
Qed.

Lemma xlog2_increment (k : nat) :
  (xlog2 (S k) - xlog2 k <= xlog2 (S (S k)) - xlog2 (S k))%R.
Proof.
  pose proof ln2_pos as H2.
  destruct k as [|k].
  - rewrite xlog2_0, xlog2_1. unfold xlog2.
    assert (H : (0 <= log2 (INR 2))%R) by (apply log2_nonneg; cbn; lra).
    cbn in *. lra.
  - unfold xlog2, log2. rewrite !S_INR.
    set (x := INR k) in *.
    assert (Hx : (0 <= x)%R) by apply pos_INR.
    pose proof (xlnx_increment (x + 1)) as H.
    lapply H; [clear H; intros H|lra].
    replace (x + 1 + 1)%R with (x + 2)%R in * by ring.
    replace (x + 1 + 2)%R with (x + 3)%R in * by ring.
    replace (x + 2 + 1)%R with (x + 3)%R by ring.
    apply (Rmult_le_compat_r (/ ln 2)) in H;
      [|left; now apply Rinv_0_lt_compat].
    unfold Rdiv. lra.
Qed.

Lemma xlog2_increment_mono (k n : nat) :
  (k <= n)%nat ->
  (xlog2 (S k) - xlog2 k <= xlog2 (S n) - xlog2 n)%R.
Proof.
  induction 1 as [|n _ IH]; [lra|].
  eapply Rle_trans; [exact IH|apply xlog2_increment].
Qed.

(** ** The frequency-based estimate never shrinks when characters are added *)

Lemma shannon_snoc (pw : str) (c : char) :
  (shannon_entropy_bits pw <= shannon_entropy_bits (pw ++ [c]))%R.
Proof.
  rewrite !shannon_closed_form, char_freq_snoc.
  rewrite (freq_incr_sum xlog2) by apply xlog2_0.
  rewrite length_app. cbn [List.length]. rewrite Nat.add_1_r.
  pose proof (xlog2_increment_mono (freq_get c (char_freq pw))
                (List.length pw)) as H.
  lapply H; [lra|].
  rewrite <- char_freq_total. apply freq_get_le_total.
Qed.

Lemma shannon_mono (pw ext : str) :
  (shannon_entropy_bits pw <= shannon_entropy_bits (pw ++ ext))%R.
Proof.
  revert pw. induction ext as [|c ext IH]; intros pw.
  - rewrite app_nil_r. lra.
  - replace (pw ++ c :: ext) with ((pw ++ [c]) ++ ext)
      by now rewrite <- app_assoc.
    eapply Rle_trans; [apply shannon_snoc|apply IH].
Qed.

Lemma shannon_nonneg (pw : str) : (0 <= shannon_entropy_bits pw)%R.
Proof. apply (shannon_mono [] pw). Qed.

(** ** detect_charsets *)

Lemma detect_charsets_size (pw : str) :
  fst (detect_charsets pw) = alphabet_size pw.
Proof.
  unfold detect_charsets, alphabet_size, has_lower, has_upper, has_digit,
    has_other.
  destruct (existsb is_lower pw), (existsb is_upper pw),
    (existsb is_digit pw), (existsb is_other pw); reflexivity.
Qed.

Lemma used_sets_count (pw : str) :
  Z.of_nat (List.length (used_sets pw)) = class_count pw.
Proof.
  unfold used_sets, detect_charsets, class_count, has_lower, has_upper,
    has_digit, has_other.
  destruct (existsb is_lower pw), (existsb is_upper pw),
    (existsb is_digit pw), (existsb is_other pw); reflexivity.
Qed.

Lemma used_sets_names (pw : str) :
  name_in "lowercase" (used_sets pw) = has_lower pw /\
  name_in "uppercase" (used_sets pw) = has_upper pw /\
  name_in "digits" (used_sets pw) = has_digit pw /\
  name_in "symbols" (used_sets pw) = has_other pw.
Proof.
  unfold used_sets, detect_charsets, has_lower, has_upper, has_digit,
    has_other.
  destruct (existsb is_lower pw), (existsb is_upper pw),
    (existsb is_digit pw), (existsb is_other pw); repeat split.
Qed.

(** Every character falls in one of the four classes. *)
Lemma char_classified (c : char) :
  is_lower c || is_upper c || is_digit c || is_other c = true.
Proof.
  unfold is_other.
  destruct (is_lower c), (is_upper c), (is_digit c); reflexivity.
Qed.

Lemma alphabet_size_positive (pw : str) : pw <> [] -> 10 <= alphabet_size pw.
Proof.
  destruct pw as [|c pw']; [congruence|intros _].
  pose proof (char_classified c) as Hc.
  unfold alphabet_size, has_lower, has_upper, has_digit, has_other.
  cbn [existsb].
  destruct (is_lower c), (is_upper c), (is_digit c), (is_other c);
    try discriminate; cbn [orb];
    destruct (existsb is_lower pw'), (existsb is_upper pw'),
      (existsb is_digit pw'), (existsb is_other pw'); lia.
Qed.

Lemma alphabet_size_range (pw : str) : 0 <= alphabet_size pw <= 95.
Proof.
  unfold alphabet_size.
  destruct (has_lower pw), (has_upper pw), (has_digit pw), (has_other pw); lia.
Qed.

Lemma existsb_app_mono {A} (p : A -> bool) (l l' : list A) :
  existsb p l = true -> existsb p (l ++ l') = true.
Proof. intros H. rewrite existsb_app, H. reflexivity. Qed.

Lemma alphabet_size_mono (pw ext : str) :
  alphabet_size pw <= alphabet_size (pw ++ ext).
Proof.
  unfold alphabet_size, has_lower, has_upper, has_digit, has_other.
  rewrite !existsb_app.
  destruct (existsb is_lower pw), (existsb is_upper pw),
    (existsb is_digit pw), (existsb is_other pw); cbn [orb];
    destruct (existsb is_lower ext), (existsb is_upper ext),
      (existsb is_digit ext), (existsb is_other ext); lia.
Qed.

Lemma class_count_mono (pw ext : str) :
  class_count pw <= class_count (pw ++ ext).
Proof.
  unfold class_count, has_lower, has_upper, has_digit, has_other.
  rewrite !existsb_app.
  destruct (existsb is_lower pw), (existsb is_upper pw),
    (existsb is_digit pw), (existsb is_other pw); cbn [orb];
    destruct (existsb is_lower ext), (existsb is_upper ext),
      (existsb is_digit ext), (existsb is_other ext); cbn [Z.b2z]; lia.
Qed.

(** ** The search-space estimate *)

Lemma search_space_closed_form (pw : str) :
  estimated_search_space_entropy_bits pw =
  if alphabet_size pw =? 0 then 0%R
  else (INR (List.length pw) * log2 (IZR (alphabet_size pw)))%R.
Proof.
  unfold estimated_search_space_entropy_bits.
  rewrite <- detect_charsets_size.
  destruct (detect_charsets pw); reflexivity.
Qed.

Lemma search_space_mono (pw ext : str) :
  (estimated_search_space_entropy_bits pw
   <= estimated_search_space_entropy_bits (pw ++ ext))%R.
Proof.
  rewrite !search_space_closed_form.
  pose proof (alphabet_size_mono pw ext) as Hm.
  pose proof (alphabet_size_range pw) as Hr.
  assert (Hn : (INR (List.length pw) <= INR (List.length (pw ++ ext)))%R)
    by (apply le_INR; rewrite length_app; lia).
  pose proof (pos_INR (List.length pw)) as Hn0.
  destruct (Z.eqb_spec (alphabet_size pw) 0) as [E|E];
    destruct (Z.eqb_spec (alphabet_size (pw ++ ext)) 0) as [E'|E'];
    try lia; try lra.
  - apply Rmult_le_pos; [lra|].
    apply log2_nonneg, IZR_le. lia.
  - assert (H1 : (1 <= IZR (alphabet_size pw))%R) by (apply IZR_le; lia).
    apply Rmult_le_compat; auto.
    + now apply log2_nonneg.
    + apply log2_mono; [lra|now apply IZR_le].
Qed.

Lemma search_space_nonneg (pw : str) :
  (0 <= estimated_search_space_entropy_bits pw)%R.
Proof.
  rewrite search_space_closed_form.
  pose proof (alphabet_size_range pw) as Hr.
  destruct (Z.eqb_spec (alphabet_size pw) 0) as [E|E]; [lra|].
  apply Rmult_le_pos; [apply pos_INR|].
  apply log2_nonneg, IZR_le. lia.
Qed.

Lemma combined_entropy_nonneg (pw : str) : (0 <= combined_entropy pw)%R.
Proof.
  apply py_min_nonneg; [apply shannon_nonneg|apply search_space_nonneg].
Qed.

Lemma combined_entropy_mono (pw ext : str) :
  (combined_entropy pw <= combined_entropy (pw ++ ext))%R.
Proof. apply py_min_mono; [apply shannon_mono|apply search_space_mono]. Qed.

(** ** The point contributions *)

Lemma length_points_range (n : Z) : 5 <= length_points n <= 40.
Proof.
  unfold length_points.
  destruct (n <? 8), (n <? 12), (n <? 16); lia.
Qed.

Lemma length_points_mono (n m : Z) :
  n <= m -> length_points n <= length_points m.
Proof.
  intros H. unfold length_points.
  destruct (Z.ltb_spec n 8), (Z.ltb_spec n 12), (Z.ltb_spec n 16),
    (Z.ltb_spec m 8), (Z.ltb_spec m 12), (Z.ltb_spec m 16); lia.
Qed.

Lemma variety_points_eq (pw : str) :
  variety_points pw = 5 * class_count pw.
Proof.
  unfold variety_points. rewrite used_sets_count.
  unfold class_count.
  destruct (has_lower pw), (has_upper pw), (has_digit pw), (has_other pw);
    reflexivity.
Qed.

Lemma variety_points_range (pw : str) : 0 <= variety_points pw <= 20.
Proof.
  rewrite variety_points_eq. unfold class_count.
  destruct (has_lower pw), (has_upper pw), (has_digit pw), (has_other pw);
    cbn; lia.
Qed.

Lemma penalty_of_range (a b c : bool) : 0 <= penalty_of a b c <= 39.
Proof. destruct a, b, c; cbn; lia. Qed.

(** ** The shape of the result *)

Lemma if_negb_app (n : bool) (fb : list string) (x : string) :
  (if negb n then fb ++ [x] else fb) = fb ++ (if n then [] else [x]).
Proof. destruct n; cbn; now rewrite ?app_nil_r. Qed.

Lemma finish_feedback_eq (fb : list string) (s : Z) :
  (if (match fb with [] => true | _ => false end) && (80 <=? s)
   then fb ++ [great_feedback] else fb) = finish_feedback fb s.
Proof. destruct fb; cbn; [destruct (80 <=? s)|]; reflexivity. Qed.

(** The function computes the policy above. *)
Lemma score_password_unfold (pw : str) :
  pw <> [] ->
  score_password pw =
  mkStrengthResult (clamp (raw_score pw))
                   (final_label (clamp (raw_score pw)))
                   (combined_entropy pw)
                   (finish_feedback (step_feedback pw) (clamp (raw_score pw))).
Proof.
  intros Hne. destruct pw as [|c pw']; [congruence|].
  set (pw := c :: pw') in *.
  unfold score_password, raw_score, step_feedback, penalties, variety_points,
    used_sets, final_label, clamp, combined_entropy, entropy_points.
  fold pw.
  destruct (detect_charsets pw) as [cs us]; cbn [snd].
  generalize (py_min (shannon_entropy_bits pw)
                     (estimated_search_space_entropy_bits pw)); intros e.
  generalize (py_int (py_min 25 (e / 80 * 25))); intros ep.
  generalize (Z.min 20 (Z.of_nat (List.length us) * 5)); intros vp.
  unfold length_points, length_feedback, variety_feedback, penalty_of,
    penalty_feedback.
  change
    "Great password. Consider using a password manager to generate/store unique passwords."%string
    with great_feedback.
  destruct (len pw <? 8); [|destruct (len pw <? 12); [|destruct (len pw <? 16)]];
  destruct (looks_like_common_password pw), (has_repeated_runs pw),
    (has_keyboard_pattern pw);
  lazy beta iota zeta delta [fst snd pw];
  rewrite finish_feedback_eq, !if_negb_app, ?Z.add_0_l, ?Z.add_0_r;
  cbn [app]; rewrite <- ?app_assoc, ?app_nil_r; reflexivity.
Qed.

(** ** Bounds on the score *)

Lemma raw_score_upper (pw : str) : raw_score pw <= 85.
Proof.
  unfold raw_score, penalties.
  pose proof (length_points_range (len pw)).
  pose proof (variety_points_range pw).
  pose proof (entropy_points_bounds _ (combined_entropy_nonneg pw)).
  pose proof (penalty_of_range (looks_like_common_password pw)
                (has_repeated_runs pw) (has_keyboard_pattern pw)).
  lia.
Qed.

Lemma score_eq (pw : str) :
  pw <> [] -> score (score_password pw) = clamp (raw_score pw).
Proof. intros H. now rewrite score_password_unfold. Qed.

Lemma label_eq (pw : str) :
  pw <> [] ->
  label (score_password pw) = final_label (score (score_password pw)).
Proof. intros H. now rewrite score_password_unfold. Qed.

Lemma entropy_bits_eq (pw : str) :
  pw <> [] -> entropy_bits (score_password pw) = combined_entropy pw.
Proof. intros H. now rewrite score_password_unfold. Qed.

Lemma feedback_eq (pw : str) :
  pw <> [] ->
  feedback (score_password pw) =
  finish_feedback (step_feedback pw) (score (score_password pw)).
Proof. intros H. now rewrite score_password_unfold. Qed.

Lemma score_range (pw : str) : 0 <= score (score_password pw) <= 100.
Proof.
  destruct pw as [|c pw']; [cbn; lia|].
  rewrite score_eq by discriminate. unfold clamp. lia.
Qed.

Lemma entropy_bits_nonneg (pw : str) :
  (0 <= entropy_bits (score_password pw))%R.
Proof.
  destruct pw as [|c pw']; [cbn; lra|].
  rewrite entropy_bits_eq by discriminate. apply combined_entropy_nonneg.
Qed.

(** C1: for every input string, [score_password] returns a result whose
    score lies between 0 and 100 and whose entropy estimate is not
    negative. *)
Theorem score_password_bounds (pw : str) :
  0 <= score (score_password pw) <= 100
  /\ (0 <= entropy_bits (score_password pw))%R.
Proof. split; [apply score_range|apply entropy_bits_nonneg]. Qed.

(** C2: on the empty string the result is exactly score 0, label
    "Very Weak", entropy 0.0 and the single feedback line
    "Password is empty"; no other check contributes. *)
Theorem score_password_empty :
  score_password [] =
  mkStrengthResult 0 "Very Weak" 0%R ["Password is empty"%string].
Proof. reflexivity. Qed.

(** ** Exact entropy points on small inputs *)

Lemma entropy_points_exact (e : R) (z : Z) :
  0 <= z <= 25 -> (e / 80 * 25)%R = IZR z -> entropy_points e = z.
Proof.
  intros Hz He. unfold entropy_points. rewrite He, py_min_Rmin.
  rewrite Rmin_right by (apply IZR_le; lia).
  apply py_int_IZR.
Qed.

Lemma combined_entropy_shannon (pw : str) :
  (shannon_entropy_bits pw <= estimated_search_space_entropy_bits pw)%R ->
  combined_entropy pw = shannon_entropy_bits pw.
Proof.
  intros H. unfold combined_entropy. rewrite py_min_Rmin.
  now apply Rmin_left.
Qed.

Lemma shannon_single (c : char) : shannon_entropy_bits [c] = 0%R.
Proof.
  rewrite shannon_closed_form. cbn [char_freq fold_left freq_incr map snd].
  cbn [sum_R List.length]. rewrite xlog2_1. lra.
Qed.

Lemma entropy_points_single (c : char) :
  entropy_points (combined_entropy [c]) = 0.
Proof.
  apply entropy_points_exact; [lia|].
  rewrite combined_entropy_shannon.
  - rewrite shannon_single. lra.
  - rewrite shannon_single. apply search_space_nonneg.
Qed.

(** ** The label *)

Lemma final_label_values (s : Z) :
  final_label s = "Strong"%string \/ final_label s = "Very Strong"%string.
Proof. unfold final_label. destruct (s <? 80); auto. Qed.

(** No non-empty password is ever labelled "Very Weak", "Weak" or "Fair":
    the first three assignments of the label are overwritten by the
    fourth statement. *)
Lemma label_two_valued (pw : str) :
  pw <> [] ->
  label (score_password pw) =
  if score (score_password pw) <? 80 then "Strong"%string
  else "Very Strong"%string.
Proof. intros H. now rewrite label_eq. Qed.

(** C3: the five bins of the label.  On the password "a" the score is 10,
    which the bins [0,20) put at "Very Weak"; the function returns
    "Strong". *)
Theorem label_of_score_10 :
  score (score_password (lit "a")) = 10
  /\ label (score_password (lit "a")) = "Strong"%string.
Proof.
  assert (Hne : lit "a" <> []) by (cbv; discriminate).
  assert (Hs : score (score_password (lit "a")) = 10).
  { rewrite score_eq by assumption. unfold raw_score.
    change (lit "a") with [97%N] at 3.
    rewrite entropy_points_single.
    replace (length_points (len (lit "a"))) with 5 by (vm_compute; reflexivity).
    replace (variety_points (lit "a")) with 5 by (vm_compute; reflexivity).
    replace (penalties (lit "a")) with 0 by (vm_compute; reflexivity).
    reflexivity. }
  split; [exact Hs|].
  rewrite label_eq, Hs by assumption. reflexivity.
Qed.

(** C9: the score never exceeds 85 (40 for length, 20 for variety, 25 for
    entropy, penalties only subtracting), the upper clamp at 100 never
    binds, and a "Very Strong" result has its score in [80, 85]. *)
Theorem score_at_most_85 (pw : str) :
  score (score_password pw) <= 85
  /\ Z.min 100 (raw_score pw) = raw_score pw
  /\ (label (score_password pw) = "Very Strong"%string ->
      80 <= score (score_password pw) <= 85).
Proof.
  pose proof (raw_score_upper pw) as Hraw.
  destruct pw as [|c pw'].
  - cbn. repeat split; try lia; discriminate.
  - assert (Hne : c :: pw' <> []) by discriminate.
    rewrite label_eq, score_eq by assumption.
    unfold final_label, clamp.
    repeat split; try lia.
    destruct (Z.ltb_spec (Z.max 0 (Z.min 100 (raw_score (c :: pw')))) 80);
      [discriminate|lia].
Qed.

(** ** Passwords that draw no feedback *)

Lemma variety_feedback_all (used : list string) :
  name_in "lowercase" used = true -> name_in "uppercase" used = true ->
  name_in "digits" used = true -> name_in "symbols" used = true ->
  variety_feedback used = [].
Proof. intros H1 H2 H3 H4. unfold variety_feedback. now rewrite H1, H2, H3, H4. Qed.

(** C10: a password of length 12 to 15 with all four character classes and
    no penalty gets no feedback line at all and a score of at most 77; and
    such a password exists. *)
Theorem mid_length_password_without_feedback :
  (forall pw : str,
      12 <= len pw < 16 ->
      has_lower pw = true -> has_upper pw = true ->
      has_digit pw = true -> has_other pw = true ->
      looks_like_common_password pw = false ->
      has_repeated_runs pw = false ->
      has_keyboard_pattern pw = false ->
      feedback (score_password pw) = []
      /\ score (score_password pw) <= 77)
  /\ exists pw : str, pw <> [] /\ feedback (score_password pw) = [].
Proof.
  assert (Hgen : forall pw : str,
      12 <= len pw < 16 ->
      has_lower pw = true -> has_upper pw = true ->
      has_digit pw = true -> has_other pw = true ->
      looks_like_common_password pw = false ->
      has_repeated_runs pw = false ->
      has_keyboard_pattern pw = false ->
      feedback (score_password pw) = []
      /\ score (score_password pw) <= 77).
  { intros pw Hlen Hl Hu Hd Ho Hc Hr Hk.
    assert (Hne : pw <> []) by (intros ->; cbn in Hlen; lia).
    assert (Hscore : score (score_password pw) <= 77).
    { rewrite score_eq by assumption. unfold clamp, raw_score, penalties.
      rewrite Hc, Hr, Hk.
      change (penalty_of false false false) with 0.
      pose proof (variety_points_range pw).
      pose proof (entropy_points_bounds _ (combined_entropy_nonneg pw)).
      unfold length_points.
      destruct (Z.ltb_spec (len pw) 8), (Z.ltb_spec (len pw) 12),
        (Z.ltb_spec (len pw) 16); lia. }
    split; [|exact Hscore].
    rewrite feedback_eq by assumption. unfold step_feedback.
    destruct (used_sets_names pw) as (E1 & E2 & E3 & E4).
    rewrite variety_feedback_all by congruence.
    rewrite Hc, Hr, Hk. unfold length_feedback.
    destruct (Z.ltb_spec (len pw) 8), (Z.ltb_spec (len pw) 12); try lia.
    cbn [penalty_feedback app finish_feedback].
    destruct (Z.leb_spec 80 (score (score_password pw))); [lia|reflexivity]. }
  split; [exact Hgen|].
  exists (lit "Gx7!mPq2#Lw9"). split; [cbv; discriminate|].
  apply Hgen; vm_compute; try reflexivity.
  split; [discriminate|reflexivity].
Qed.

(** ** The frequency table against the character counts *)


Lemma freq_incr_keys (c k : char) (f : list (char * nat)) :
  In k (map fst (freq_incr c f)) <-> k = c \/ In k (map fst f).
Proof.
  induction f as [|[k' v] f IH]; cbn [freq_incr map fst In].
  - intuition.
  - destruct (N.eqb_spec k' c) as [->|Hne]; cbn [map fst In]; intuition.
Qed.



Lemma char_freq_keys (pw : str) (k : char) :
  In k (map fst (char_freq pw)) <-> In k pw.
Proof.
  induction pw as [|x pw IH] using rev_ind; [reflexivity|].
  rewrite char_freq_snoc, freq_incr_keys, IH, in_app_iff.
  cbn [In]. intuition.
Qed.


(** ** Monotonicity *)

Lemma copies_at_app (c : char) (k : nat) (s ext : str) :
  copies_at c k s = true -> copies_at c k (s ++ ext) = true.
Proof.
  revert s. induction k as [|k IH]; intros s; [reflexivity|].
  destruct s as [|d s]; cbn [copies_at app]; [discriminate|].
  rewrite !andb_true_iff. intros [H1 H2]. auto.
Qed.

Lemma has_repeated_runs_app (pw ext : str) :
  has_repeated_runs pw = true -> has_repeated_runs (pw ++ ext) = true.
Proof.
  unfold has_repeated_runs.
  induction pw as [|c pw IH]; cbn [has_repeated_runs_len app]; [discriminate|].
  rewrite !orb_true_iff, !andb_true_iff.
  intros [[H1 H2]|H]; [left|right; auto].
  split; [exact H1|now apply copies_at_app].
Qed.

(** The points before the penalties never shrink under an extension. *)
Lemma points_mono (pw ext : str) :
  raw_score pw + penalties pw
  <= raw_score (pw ++ ext) + penalties (pw ++ ext).
Proof.
  unfold raw_score.
  assert (Hlen : len pw <= len (pw ++ ext))
    by (unfold len; rewrite length_app; lia).
  pose proof (length_points_mono _ _ Hlen).
  pose proof (class_count_mono pw ext).
  pose proof (entropy_points_mono _ _ (combined_entropy_mono pw ext)).
  rewrite !variety_points_eq. lia.
Qed.

Lemma score_mono_penalties (pw ext : str) :
  penalties (pw ++ ext) <= penalties pw ->
  score (score_password pw) <= score (score_password (pw ++ ext)).
Proof.
  intros Hp. destruct pw as [|c pw'].
  - cbn [score_password score]. apply score_range.
  - rewrite !score_eq by discriminate.
    pose proof (points_mono (c :: pw') ext).
    unfold clamp. lia.
Qed.

(** C8: appending characters that bring in a new character class, create
    no repeated run and leave both strings free of sequences, keyboard
    patterns and common-password matches never lowers the score. *)
Theorem score_monotone (pw ext : str) :
  class_count pw < class_count (pw ++ ext) ->
  has_repeated_runs (pw ++ ext) = false ->
  has_sequence pw = false -> has_sequence (pw ++ ext) = false ->
  has_keyboard_pattern pw = false ->
  has_keyboard_pattern (pw ++ ext) = false ->
  looks_like_common_password pw = false ->
  looks_like_common_password (pw ++ ext) = false ->
  score (score_password pw) <= score (score_password (pw ++ ext)).
Proof.
  intros _ Hr _ _ Hk Hk' Hc Hc'.
  apply score_mono_penalties. unfold penalties.
  rewrite Hr, Hk, Hk', Hc, Hc'.
  destruct (has_repeated_runs pw) eqn:E.
  - apply (has_repeated_runs_app pw ext) in E. congruence.
  - cbn. lia.
Qed.

(** ** Sequence detection *)

Lemma in_finish_feedback (fb : list string) (s : Z) (line : string) :
  In line (finish_feedback fb s) -> In line fb \/ line = great_feedback.
Proof.
  destruct fb as [|x fb]; cbn [finish_feedback]; [|auto].
  destruct (80 <=? s); cbn; intuition.
Qed.

Lemma length_feedback_lines (n : Z) (line : string) :
  In line (length_feedback n) -> In line feedback_lines.
Proof.
  unfold length_feedback.
  destruct (n <? 8), (n <? 12); cbn [In]; intros H;
    repeat match type of H with
           | _ \/ _ => destruct H as [H|H]
           | False => destruct H
           end;
    subst line; cbn; tauto.
Qed.

Lemma variety_feedback_lines (used : list string) (line : string) :
  In line (variety_feedback used) -> In line feedback_lines.
Proof.
  unfold variety_feedback. rewrite !in_app_iff.
  destruct (name_in "lowercase" used), (name_in "uppercase" used),
    (name_in "digits" used), (name_in "symbols" used);
    cbn [In]; intros H;
    repeat match type of H with
           | _ \/ _ => destruct H as [H|H]
           | False => destruct H
           end;
    subst line; cbn; tauto.
Qed.

Lemma penalty_feedback_lines (a b c : bool) (line : string) :
  In line (penalty_feedback a b c) -> In line feedback_lines.
Proof.
  unfold penalty_feedback. rewrite !in_app_iff.
  destruct a, b, c; cbn [In]; intros H;
    repeat match type of H with
           | _ \/ _ => destruct H as [H|H]
           | False => destruct H
           end;
    subst line; cbn; tauto.
Qed.

Lemma step_feedback_lines (pw : str) (line : string) :
  In line (step_feedback pw) -> In line feedback_lines.
Proof.
  unfold step_feedback. rewrite !in_app_iff.
  intros [H|[H|H]];
    eauto using length_feedback_lines, variety_feedback_lines,
      penalty_feedback_lines.
Qed.

(** ** Repeated runs *)

Lemma copies_at_spec (c : char) (k : nat) (s : str) :
  copies_at c k s = true <-> exists post, s = repeat c k ++ post.
Proof.
  revert s. induction k as [|k IH]; intros s; cbn [copies_at repeat app].
  - split; [intros _; now exists s|reflexivity].
  - destruct s as [|d s].
    + split; [discriminate|intros [post H]; discriminate].
    + rewrite andb_true_iff, N.eqb_eq, IH. split.
      * intros [-> [post ->]]. now exists post.
      * intros [post H]. injection H as -> ->. split; [reflexivity|].
        now exists post.
Qed.

(** What the scan detects: a run of a character other than the newline. *)
Lemma has_repeated_runs_len_spec (pw : str) (k : nat) :
  has_repeated_runs_len pw (S k) = true <->
  exists c, c <> newline /\ has_run c (S k) pw.
Proof.
  unfold has_run. induction pw as [|d pw IH]; cbn [has_repeated_runs_len].
  - split; [discriminate|].
    intros (c & _ & pre & post & H). destruct pre; discriminate.
  - rewrite orb_true_iff, andb_true_iff, negb_true_iff, N.eqb_neq, IH.
    replace (S k - 1)%nat with k by lia. rewrite copies_at_spec. split.
    + intros [[Hd [post ->]]|(c & Hc & pre & post & ->)].
      * exists d. split; [exact Hd|]. now exists [], post.
      * exists c. split; [exact Hc|]. now exists (d :: pre), post.
    + intros (c & Hc & pre & post & H). destruct pre as [|e pre].
      * cbn [app repeat] in H. injection H as -> ->.
        left. split; [exact Hc|]. now exists post.
      * cbn [app] in H. injection H as -> ->.
        right. exists c. split; [exact Hc|]. now exists pre, post.
Qed.

Lemma has_repeated_runs_spec (pw : str) :
  has_repeated_runs pw = true <-> exists c, c <> newline /\ has_run c 4 pw.
Proof. apply has_repeated_runs_len_spec. Qed.

Lemma in_finish_feedback_intro (fb : list string) (s : Z) (line : string) :
  In line fb -> In line (finish_feedback fb s).
Proof. destruct fb; [intros []|auto]. Qed.

(** When a repeated run is detected, 8 points go and the line is there. *)
Lemma repeated_run_penalty (pw : str) :
  has_repeated_runs pw = true ->
  score (score_password pw) =
  clamp (length_points (len pw) + variety_points pw
         + entropy_points (combined_entropy pw)
         - (if looks_like_common_password pw then 25 else 0) - 8
         - (if has_keyboard_pattern pw then 6 else 0))
  /\ In repeated_feedback (feedback (score_password pw)).
Proof.
  intros Hr.
  assert (Hne : pw <> []) by (intros ->; discriminate).
  rewrite score_eq, feedback_eq by assumption.
  unfold raw_score, penalties, step_feedback. rewrite Hr. split.
  - unfold penalty_of. f_equal. lia.
  - apply in_finish_feedback_intro. rewrite !in_app_iff.
    right. right. unfold penalty_feedback. rewrite !in_app_iff.
    right. left. now left.
Qed.

(** C6: a single character four or more times in a row is to be flagged.
    Four newlines in a row are such a run; the scan does not flag them and
    no penalty is subtracted. *)
Theorem newline_run_not_flagged :
  has_run newline 4 (repeat newline 4)
  /\ has_repeated_runs (repeat newline 4) = false
  /\ penalties (repeat newline 4) = 0.
Proof.
  split; [now exists [], []|].
  split; vm_compute; reflexivity.
Qed.

(** ** The regular expressions *)

Lemma at_dollar_spec (s : str) :
  at_dollar s = true <-> s = [] \/ s = [newline].
Proof.
  destruct s as [|c [|d s]]; cbn [at_dollar].
  - intuition.
  - rewrite N.eqb_eq. split; [intros ->; auto|intros [H|H]; congruence].
  - split; [discriminate|intros [H|H]; discriminate].
Qed.

Lemma digit_not_letter (c : char) : is_digit c = true -> is_letter c = false.
Proof.
  unfold is_digit, is_letter, is_lower, is_upper, in_range.
  rewrite !andb_true_iff, !N.leb_le. intros [H1 H2].
  destruct (N.leb_spec 97 c), (N.leb_spec c 122), (N.leb_spec 65 c),
    (N.leb_spec c 90); cbn; try reflexivity; lia.
Qed.

Lemma digit_not_newline (c : char) : is_digit c = true -> c <> newline.
Proof. intros H ->. discriminate. Qed.

Lemma digits_upto_dollar_spec (k : nat) (s : str) :
  digits_upto_dollar k s = true <->
  exists digits tail,
    s = digits ++ tail /\ forallb is_digit digits = true /\
    (1 <= List.length digits <= k)%nat /\ at_dollar tail = true.
Proof.
  revert s. induction k as [|k IH]; intros s; cbn [digits_upto_dollar].
  - split; [discriminate|]. intros (ds & tl & _ & _ & H & _). lia.
  - destruct s as [|c s].
    + split; [discriminate|].
      intros (ds & tl & H & _ & Hl & _). destruct ds; [cbn in Hl; lia|discriminate].
    + rewrite andb_true_iff, orb_true_iff, IH. split.
      * intros [Hc [Ht|(ds & tl & -> & Hd & Hl & Ht)]].
        -- exists [c], s. cbn. rewrite Hc. repeat split; auto; lia.
        -- exists (c :: ds), tl. cbn. rewrite Hc, Hd. repeat split; auto; lia.
      * intros (ds & tl & H & Hd & Hl & Ht).
        destruct ds as [|d ds]; [cbn in Hl; lia|].
        cbn in H, Hd, Hl. injection H as -> ->.
        apply andb_true_iff in Hd as [Hc Hd]. split; [exact Hc|].
        destruct ds as [|e ds]; [left; exact Ht|right].
        exists (e :: ds), tl. repeat split; auto; cbn in *; lia.
Qed.

Lemma letters_then_digits_spec (s : str) :
  letters_then_digits s = true <->
  exists letters digits tail,
    s = letters ++ digits ++ tail /\ forallb is_letter letters = true /\
    forallb is_digit digits = true /\
    (1 <= List.length digits <= 4)%nat /\ at_dollar tail = true.
Proof.
  induction s as [|c s IH]; cbn [letters_then_digits].
  - split; [discriminate|].
    intros (ls & ds & tl & H & _ & _ & Hl & _).
    destruct ls; [destruct ds; [cbn in Hl; lia|discriminate]|discriminate].
  - destruct (is_letter c) eqn:Ec.
    + rewrite IH. split.
      * intros (ls & ds & tl & -> & Hls & Hds & Hl & Ht).
        exists (c :: ls), ds, tl. cbn. rewrite Ec. auto.
      * intros (ls & ds & tl & H & Hls & Hds & Hl & Ht).
        destruct ls as [|l ls].
        -- destruct ds as [|d ds]; [cbn in Hl; lia|].
           cbn in H, Hds. injection H as -> ->.
           apply andb_true_iff in Hds as [Hd _].
           apply digit_not_letter in Hd. congruence.
        -- cbn in H, Hls. injection H as -> ->.
           apply andb_true_iff in Hls as [_ Hls].
           now exists ls, ds, tl.
    + rewrite digits_upto_dollar_spec. split.
      * intros (ds & tl & H & Hds & Hl & Ht). now exists [], ds, tl.
      * intros (ls & ds & tl & H & Hls & Hds & Hl & Ht).
        destruct ls as [|l ls]; [now exists ds, tl|].
        cbn in H, Hls. injection H as -> ->.
        apply andb_true_iff in Hls as [Hc _]. congruence.
Qed.

Lemma match_letters_digits_spec (s : str) :
  match_letters_digits s = true <->
  exists letters digits tail,
    s = letters ++ digits ++ tail /\ letters <> [] /\
    forallb is_letter letters = true /\ forallb is_digit digits = true /\
    (1 <= List.length digits <= 4)%nat /\ at_dollar tail = true.
Proof.
  destruct s as [|c s]; cbn [match_letters_digits].
  - split; [discriminate|].
    intros (ls & ds & tl & H & Hne & _). destruct ls; [congruence|discriminate].
  - rewrite andb_true_iff, letters_then_digits_spec. split.
    + intros [Hc (ls & ds & tl & -> & Hls & Hds & Hl & Ht)].
      exists (c :: ls), ds, tl. cbn. rewrite Hc.
      repeat split; auto; try discriminate; lia.
    + intros (ls & ds & tl & H & Hne & Hls & Hds & Hl & Ht).
      destruct ls as [|l ls]; [congruence|].
      cbn in H, Hls. injection H as -> ->.
      apply andb_true_iff in Hls as [Hc Hls].
      split; [exact Hc|]. now exists ls, ds, tl.
Qed.

Lemma digits_dollar_digits (digits tail : str) :
  digits <> [] -> forallb is_digit digits = true -> at_dollar tail = true ->
  digits_dollar (digits ++ tail) = Some tail.
Proof.
  intros Hne Hd Ht. induction digits as [|c ds IH]; [congruence|].
  cbn in Hd. apply andb_true_iff in Hd as [Hc Hds].
  cbn [app digits_dollar]. rewrite Hc.
  destruct ds as [|d ds].
  - cbn [app]. now rewrite Ht.
  - assert (Hnd : at_dollar ((d :: ds) ++ tail) = false).
    { cbn in Hds. apply andb_true_iff in Hds as [Hdd _].
      destruct ds as [|e ds]; cbn [app at_dollar].
      - destruct tail; [|reflexivity].
        apply N.eqb_neq. now apply digit_not_newline.
      - reflexivity. }
    rewrite Hnd. apply IH; [discriminate|exact Hds].
Qed.

Lemma sub_trailing_digits_split (letters digits tail : str) :
  forallb is_letter letters = true -> digits <> [] ->
  forallb is_digit digits = true -> at_dollar tail = true ->
  sub_trailing_digits (letters ++ digits ++ tail) = letters ++ tail.
Proof.
  intros Hls Hne Hds Ht. induction letters as [|l ls IH].
  - cbn [app]. destruct digits as [|d ds]; [congruence|].
    cbn [sub_trailing_digits app].
    change (d :: ds ++ tail) with ((d :: ds) ++ tail).
    now rewrite digits_dollar_digits.
  - cbn in Hls. apply andb_true_iff in Hls as [Hl Hls].
    cbn [app sub_trailing_digits digits_dollar].
    assert (Hnd : is_digit l = false).
    { destruct (is_digit l) eqn:E; [|reflexivity].
      apply digit_not_letter in E. congruence. }
    rewrite Hnd, IH by assumption. reflexivity.
Qed.

(** ** Trimming *)

Lemma lstrip_head (s : str) :
  lstrip s = [] \/ exists c r, lstrip s = c :: r /\ isspace c = false.
Proof.
  induction s as [|c s IH]; cbn [lstrip]; [now left|].
  destruct (isspace c) eqn:E; [exact IH|].
  right. now exists c, s.
Qed.

Lemma rstrip_last (s : str) :
  rstrip s = [] \/ exists init c, rstrip s = init ++ [c] /\ isspace c = false.
Proof.
  unfold rstrip. destruct (lstrip_head (rev s)) as [->|(c & r & -> & Hc)].
  - now left.
  - right. exists (rev r), c. now cbn.
Qed.

Lemma isspace_newline : isspace newline = true.
Proof. reflexivity. Qed.

(** A trimmed string never ends in a newline. *)
Lemma strip_no_final_newline (pw init : str) : strip pw <> init ++ [newline].
Proof.
  unfold strip. intros H.
  destruct (rstrip_last (lstrip pw)) as [E|(i & c & E & Hc)];
    rewrite E in H.
  - destruct init; discriminate.
  - apply app_inj_tail in H as [_ ->]. rewrite isspace_newline in Hc.
    discriminate.
Qed.

(** ** Common-password matches *)

Lemma digit_variant_code (t : str) :
  (forall init, t <> init ++ [newline]) ->
  match_letters_digits t
  && set_in (lower (sub_trailing_digits t)) COMMON_PASSWORDS = true
  <-> trailing_digit_variant t.
Proof.
  intros Hnl. rewrite andb_true_iff, match_letters_digits_spec.
  unfold trailing_digit_variant. split.
  - intros [(ls & ds & tl & Ht & Hne & Hls & Hds & Hl & Htl) Hin].
    assert (Hds' : ds <> []) by (intros ->; cbn in Hl; lia).
    apply at_dollar_spec in Htl as Hcases. destruct Hcases as [->| ->].
    + rewrite Ht, sub_trailing_digits_split, app_nil_r in Hin by assumption.
      rewrite app_nil_r in Ht. now exists ls, ds.
    + exfalso. apply (Hnl (ls ++ ds)). now rewrite <- app_assoc.
  - intros (ls & ds & Ht & Hne & Hls & Hds & Hl & Hin).
    assert (Hds' : ds <> []) by (intros ->; cbn in Hl; lia).
    assert (Ht' : t = ls ++ ds ++ []) by now rewrite app_nil_r.
    split.
    + now exists ls, ds, [].
    + rewrite Ht', sub_trailing_digits_split, app_nil_r by auto.
      exact Hin.
Qed.

Lemma looks_like_common_password_spec (pw : str) :
  looks_like_common_password pw = true <-> common_match (strip pw).
Proof.
  unfold looks_like_common_password, common_match.
  rewrite <- (digit_variant_code (strip pw))
    by (intros init; apply strip_no_final_newline).
  destruct (set_in (lower (strip pw)) COMMON_PASSWORDS);
    [intuition|].
  destruct (match_letters_digits (strip pw)
            && set_in (lower (sub_trailing_digits (strip pw)))
                 COMMON_PASSWORDS); [intuition|].
  destruct (set_in (translate leet_map (lower (strip pw))) COMMON_PASSWORDS);
    intuition discriminate.
Qed.

(** C4 (as the code has it): a password looks common exactly when its
    trimmed form matches in one of the three ways (the lowercased form is
    in the set; letters followed by one to four digits with the lowercased
    letters in the set; the leetspeak-normalised lowercased form is in the
    set).  "password", "Password123" and "p@ssw0rd" match, and a match
    costs 25 points and appends the common-password line. *)
Theorem common_password_match (pw : str) :
  (looks_like_common_password pw = true <-> common_match (strip pw))
  /\ looks_like_common_password (lit "password") = true
  /\ looks_like_common_password (lit "Password123") = true
  /\ looks_like_common_password (lit "p@ssw0rd") = true
  /\ (looks_like_common_password pw = true ->
      score (score_password pw) =
      clamp (length_points (len pw) + variety_points pw
             + entropy_points (combined_entropy pw) - 25
             - (if has_repeated_runs pw then 8 else 0)
             - (if has_keyboard_pattern pw then 6 else 0))
      /\ In common_feedback (feedback (score_password pw))).
Proof.
  split; [apply looks_like_common_password_spec|].
  do 3 (split; [vm_compute; reflexivity|]).
  intros Hc.
  assert (Hne : pw <> []) by (intros ->; discriminate).
  rewrite score_eq, feedback_eq by assumption.
  unfold raw_score, penalties, step_feedback. rewrite Hc. split.
  - unfold penalty_of. f_equal. lia.
  - apply in_finish_feedback_intro. rewrite !in_app_iff.
    right. right. unfold penalty_feedback. rewrite !in_app_iff.
    left. now left.
Qed.

(** ** A password that reaches "Very Strong" *)

Lemma log2_pow2 (n : nat) : log2 (2 ^ n) = INR n.
Proof.
  unfold log2. rewrite ln_pow by lra.
  pose proof ln2_pos. field. lra.
Qed.

Lemma xlog2_16 : xlog2 16 = 64%R.
Proof.
  unfold xlog2. replace (INR 16) with (2 ^ 4)%R by (cbn; lra).
  rewrite log2_pow2. cbn. lra.
Qed.

(** Sixteen distinct characters of all four classes: 40 + 20 + 20 points. *)
Lemma sixteen_distinct_score :
  score (score_password (lit "aB3$cD5^eF7&gH9*")) = 80
  /\ label (score_password (lit "aB3$cD5^eF7&gH9*")) = "Very Strong"%string.
Proof.
  set (pw := lit "aB3$cD5^eF7&gH9*").
  assert (Hne : pw <> []) by (cbv; discriminate).
  assert (Hsh : shannon_entropy_bits pw = 64%R).
  { rewrite shannon_closed_form.
    replace (List.length pw) with 16%nat by (vm_compute; reflexivity).
    replace (map snd (char_freq pw)) with (repeat 1%nat 16)
      by (vm_compute; reflexivity).
    cbn [repeat sum_R]. rewrite xlog2_1, xlog2_16. lra. }
  assert (Hsp : (64 <= estimated_search_space_entropy_bits pw)%R).
  { rewrite search_space_closed_form.
    replace (alphabet_size pw) with 95 by (vm_compute; reflexivity).
    replace (List.length pw) with 16%nat by (vm_compute; reflexivity).
    cbn [Z.eqb].
    assert (H4 : (4 <= log2 95)%R).
    { replace 4%R with (INR 4) by (cbn; lra).
      rewrite <- log2_pow2. apply log2_mono; lra. }
    replace (INR 16) with 16%R by (cbn; lra). lra. }
  assert (Hs : score (score_password pw) = 80).
  { rewrite score_eq by assumption. unfold raw_score.
    rewrite (entropy_points_exact _ 20); [|lia|].
    - replace (length_points (len pw)) with 40 by (vm_compute; reflexivity).
      replace (variety_points pw) with 20 by (vm_compute; reflexivity).
      replace (penalties pw) with 0 by (vm_compute; reflexivity).
      reflexivity.
    - rewrite combined_entropy_shannon, Hsh by lra. lra. }
  split; [exact Hs|].
  rewrite label_eq, Hs by assumption. reflexivity.
Qed.

(** ** The examples of the specification and the tests of the repository *)

Lemma xlog2_2 : xlog2 2 = 2%R.
Proof.
  unfold xlog2. replace (INR 2) with (2 ^ 1)%R by (cbn; lra).
  rewrite log2_pow2. cbn. lra.
Qed.

Lemma log2_ge_4 (x : R) : (16 <= x)%R -> (4 <= log2 x)%R.
Proof.
  intros H. replace 4%R with (INR 4) by (cbn; lra).
  rewrite <- log2_pow2. apply log2_mono; lra.
Qed.

Example repeated_run_examples :
  has_repeated_runs (lit "aaaa1234") = true
  /\ has_repeated_runs (lit "aaa1234b") = false.
Proof. split; reflexivity. Qed.

Example sequence_and_keyboard_examples :
  has_sequence (lit "abcd1234") = true
  /\ has_keyboard_pattern (lit "qwertyxyz") = true.
Proof. split; vm_compute; reflexivity. Qed.

(** A detected sequence costs nothing. *)
Example sequence_not_penalised :
  has_sequence (lit "abcd1234") = true /\ penalties (lit "abcd1234") = 0.
Proof. split; vm_compute; reflexivity. Qed.

(** [test_empty_password] *)
Example test_empty_password : score (score_password (lit "")) = 0.
Proof. reflexivity. Qed.

(** [test_weak_password] *)
Example test_weak_password : score (score_password (lit "hello123")) < 60.
Proof.
  rewrite score_eq by (cbv; discriminate). unfold raw_score.
  pose proof (entropy_points_bounds _
                (combined_entropy_nonneg (lit "hello123"))) as He.
  replace (length_points (len (lit "hello123"))) with 20
    by (vm_compute; reflexivity).
  replace (variety_points (lit "hello123")) with 10
    by (vm_compute; reflexivity).
  replace (penalties (lit "hello123")) with 0 by (vm_compute; reflexivity).
  unfold clamp. lia.
Qed.

(** [test_strong_password] *)
Example test_strong_password :
  70 <= score (score_password (lit "T!m3-Wh4l3__G0ld#9472")).
Proof.
  set (pw := lit "T!m3-Wh4l3__G0ld#9472").
  assert (Hsh : (32 <= shannon_entropy_bits pw)%R).
  { rewrite shannon_closed_form.
    replace (List.length pw) with 21%nat by (vm_compute; reflexivity).
    let l := eval vm_compute in (map snd (char_freq pw)) in
    replace (map snd (char_freq pw)) with l by (vm_compute; reflexivity).
    cbn [sum_R]. rewrite !xlog2_1, !xlog2_2. unfold xlog2.
    replace (INR 21) with 21%R by (cbn; lra).
    pose proof (log2_ge_4 21). lra. }
  assert (Hsp : (32 <= estimated_search_space_entropy_bits pw)%R).
  { rewrite search_space_closed_form.
    replace (alphabet_size pw) with 95 by (vm_compute; reflexivity).
    replace (List.length pw) with 21%nat by (vm_compute; reflexivity).
    cbn [Z.eqb]. replace (INR 21) with 21%R by (cbn; lra).
    pose proof (log2_ge_4 95). lra. }
  assert (He : 10 <= entropy_points (combined_entropy pw)).
  { rewrite <- (entropy_points_exact 32 10) at 1 by (lia || lra).
    apply entropy_points_mono. unfold combined_entropy.
    rewrite py_min_Rmin. now apply Rmin_glb. }
  rewrite score_eq by (cbv; discriminate). unfold raw_score.
  pose proof (entropy_points_bounds _ (combined_entropy_nonneg pw)).
  replace (length_points (len pw)) with 40 by (vm_compute; reflexivity).
  replace (variety_points pw) with 20 by (vm_compute; reflexivity).
  replace (penalties pw) with 0 by (vm_compute; reflexivity).
  unfold clamp. lia.
Qed.

(** ** Further properties of detect_charsets *)

Lemma alphabet_size_zero (pw : str) : alphabet_size pw = 0 <-> pw = [].
Proof.
  split.
  - intros H. destruct pw as [|c pw']; [reflexivity|].
    pose proof (alphabet_size_positive (c :: pw')) as Hp.
    lapply Hp; [lia|discriminate].
  - intros ->. reflexivity.
Qed.

(** X1: the size returned by [detect_charsets] is 0 exactly for the empty
    string, and so is the list of names empty exactly then; for any other
    string the size lies between 10 and 95 and one to four classes are
    named. *)
Theorem detect_charsets_empty_only (pw : str) :
  (fst (detect_charsets pw) = 0 <-> pw = [])
  /\ (snd (detect_charsets pw) = [] <-> pw = [])
  /\ (pw = [] \/
      (10 <= fst (detect_charsets pw) <= 95
       /\ (1 <= List.length (snd (detect_charsets pw)) <= 4)%nat)).
Proof.
  rewrite detect_charsets_size.
  pose proof (alphabet_size_zero pw) as Hz.
  pose proof (alphabet_size_range pw) as Hr.
  pose proof (used_sets_count pw) as Hc.
  unfold used_sets in Hc.
  assert (Hcl : alphabet_size pw = 0 <-> class_count pw = 0).
  { unfold alphabet_size, class_count.
    destruct (has_lower pw), (has_upper pw), (has_digit pw), (has_other pw);
      cbn; lia. }
  assert (Hc4 : 0 <= class_count pw <= 4).
  { unfold class_count.
    destruct (has_lower pw), (has_upper pw), (has_digit pw), (has_other pw);
      cbn; lia. }
  split; [exact Hz|]. split.
  - rewrite <- Hz, Hcl, <- Hc.
    destruct (snd (detect_charsets pw)); cbn [List.length]; split;
      intros H; try reflexivity; try discriminate; lia.
  - destruct pw as [|c pw']; [now left|right].
    pose proof (alphabet_size_positive (c :: pw')) as Hp.
    lapply Hp; [intros Hp'|discriminate].
    assert (class_count (c :: pw') <> 0) by (rewrite <- Hcl; lia).
    lia.
Qed.

Lemma existsb_Permutation {A} (p : A -> bool) (l l' : list A) :
  Permutation l l' -> existsb p l = existsb p l'.
Proof.
  induction 1 as [|x l l' _ IH|x y l|l l' l'' _ IH1 _ IH2]; cbn [existsb].
  - reflexivity.
  - now rewrite IH.
  - now destruct (p x), (p y).
  - congruence.
Qed.

(** X2: [detect_charsets] reads the characters of the password and not
    their order: two strings that are rearrangements of one another get the
    same size and the same names. *)
Theorem detect_charsets_Permutation (pw pw' : str) :
  Permutation pw pw' -> detect_charsets pw = detect_charsets pw'.
Proof.
  intros H. unfold detect_charsets.
  now rewrite !(existsb_Permutation _ pw pw' H).
Qed.

(** X3: the two components of [detect_charsets] agree: the size is the sum
    of the class sizes (26, 26, 10, 33) of the names returned, and the names
    come without repetition in the order lowercase, uppercase, digits,
    symbols. *)
Theorem detect_charsets_consistent (pw : str) :
  fst (detect_charsets pw)
  = fold_right Z.add 0 (map class_size (snd (detect_charsets pw)))
  /\ subsequence (snd (detect_charsets pw)) class_names = true
  /\ NoDup (snd (detect_charsets pw)).
Proof.
  unfold detect_charsets.
  destruct (existsb is_lower pw), (existsb is_upper pw),
    (existsb is_digit pw), (existsb is_other pw);
    (split; [reflexivity|split; [reflexivity|]]);
    repeat constructor; cbn; intuition discriminate.
Qed.

(** ** Further properties of the entropy estimates *)

Lemma char_freq_repeat (c : char) (n : nat) :
  char_freq (repeat c (S n)) = [(c, S n)].
Proof.
  induction n as [|n IH]; [reflexivity|].
  change (repeat c (S (S n))) with (c :: repeat c (S n)).
  rewrite repeat_cons, char_freq_snoc, IH.
  cbn [freq_incr]. now rewrite N.eqb_refl.
Qed.

Lemma shannon_repeat (c : char) (n : nat) :
  shannon_entropy_bits (repeat c n) = 0%R.
Proof.
  destruct n as [|n]; [reflexivity|].
  rewrite shannon_closed_form, char_freq_repeat, repeat_length.
  cbn [map snd sum_R]. lra.
Qed.

Lemma log2_lt (x y : R) : (0 < x)%R -> (x < y)%R -> (log2 x < log2 y)%R.
Proof.
  intros Hx Hxy. unfold log2.
  apply Rmult_lt_compat_r; [apply Rinv_0_lt_compat, ln2_pos|].
  now apply ln_increasing.
Qed.

Lemma sum_xlog2_lt (n : nat) (counts : list nat) :
  counts <> [] -> Forall (fun k => (1 <= k < n)%nat) counts ->
  (sum_R xlog2 counts < INR (list_sum counts) * log2 (INR n))%R.
Proof.
  intros Hne H. induction H as [|k ks Hk Hks IH]; [congruence|].
  cbn [sum_R]. rewrite list_sum_cons', plus_INR, Rmult_plus_distr_r.
  assert (H1 : (xlog2 k < INR k * log2 (INR n))%R).
  { unfold xlog2. apply Rmult_lt_compat_l.
    - apply lt_0_INR. lia.
    - apply log2_lt; [apply lt_0_INR; lia|apply lt_INR; lia]. }
  destruct ks as [|k' ks'].
  - cbn. lra.
  - assert (IH' := IH ltac:(discriminate)). lra.
Qed.

Lemma list_sum_ge_length (counts : list nat) :
  Forall (fun k => (1 <= k)%nat) counts ->
  (List.length counts <= list_sum counts)%nat.
Proof.
  induction 1 as [|k ks Hk _ IH]; [cbn; lia|].
  rewrite list_sum_cons'. cbn [List.length]. lia.
Qed.

Lemma counts_below_total (counts : list nat) :
  Forall (fun k => (1 <= k)%nat) counts -> (2 <= List.length counts)%nat ->
  Forall (fun k => (1 <= k < list_sum counts)%nat) counts.
Proof.
  intros Hpos Hlen. apply Forall_forall. intros k Hin.
  pose proof (proj1 (Forall_forall _ _) Hpos k Hin) as Hk.
  apply in_split in Hin as (a & b & ->).
  apply Forall_app in Hpos as [Ha Hb]. inversion Hb as [|? ? _ Hb']; subst.
  apply list_sum_ge_length in Ha, Hb'.
  rewrite list_sum_app, list_sum_cons'.
  rewrite length_app in Hlen. cbn [List.length] in Hlen. lia.
Qed.

Lemma Forall_eq_repeat' (c : char) (s : str) :
  (forall x, In x s -> x = c) -> s = repeat c (List.length s).
Proof.
  induction s as [|x s IH]; intros H; [reflexivity|].
  cbn [List.length repeat]. rewrite (H x) by (cbn; auto).
  f_equal. apply IH. intros y Hy. apply H. cbn. auto.
Qed.

(** X4: the frequency-based estimate is 0 exactly for the passwords made of
    one character repeated (the empty password among them); any second
    character makes it positive. *)
Theorem shannon_zero_iff_single_character (pw : str) :
  shannon_entropy_bits pw = 0%R <-> exists c n, pw = repeat c n.
Proof.
  split; [|intros (c & n & ->); apply shannon_repeat].
  intros H0.
  pose proof (char_freq_keys pw) as Hkeys.
  pose proof (char_freq_positive pw) as Hpos.
  pose proof (char_freq_total pw) as Htot.
  rewrite shannon_closed_form in H0.
  destruct (char_freq pw) as [|[c k] [|[c' k'] f]] eqn:Ef.
  - exists 0%N, 0%nat. destruct pw as [|x pw']; [reflexivity|].
    destruct (proj2 (Hkeys x)); cbn; auto.
  - exists c, (List.length pw). apply Forall_eq_repeat'.
    intros x Hx. apply Hkeys in Hx. cbn in Hx. intuition.
  - exfalso.
    set (ks := map snd ((c, k) :: (c', k') :: f)) in *.
    assert (Hlt : (sum_R xlog2 ks
                   < INR (list_sum ks) * log2 (INR (list_sum ks)))%R).
    { apply sum_xlog2_lt; [discriminate|].
      apply counts_below_total; [exact Hpos|cbn; lia]. }
    rewrite Htot in Hlt. unfold xlog2 at 1 in H0. lra.
Qed.

(** X7: the search-space estimate is 0 only for the empty password; for
    any other it lies between [len * log2 10] and [len * log2 95]. *)
Theorem search_space_range (pw : str) :
  (estimated_search_space_entropy_bits pw = 0%R <-> pw = [])
  /\ (pw = [] \/
      (INR (List.length pw) * log2 10
       <= estimated_search_space_entropy_bits pw
       <= INR (List.length pw) * log2 95)%R).
Proof.
  assert (Hb : pw <> [] ->
    (INR (List.length pw) * log2 10
     <= estimated_search_space_entropy_bits pw
     <= INR (List.length pw) * log2 95)%R).
  { intros Hne. rewrite search_space_closed_form.
    pose proof (alphabet_size_positive pw Hne) as Hp.
    pose proof (alphabet_size_range pw) as Hr.
    destruct (Z.eqb_spec (alphabet_size pw) 0) as [E|_]; [lia|].
    pose proof (pos_INR (List.length pw)) as Hn.
    split; apply Rmult_le_compat_l; try exact Hn;
      apply log2_mono; try lra; try (apply IZR_lt; lia); apply IZR_le; lia. }
  split.
  - split; [|intros ->; reflexivity].
    intros H0. destruct pw as [|c pw']; [reflexivity|exfalso].
    destruct (Hb ltac:(discriminate)) as [Hlo _].
    assert (Hlen : (1 <= INR (List.length (c :: pw')))%R).
    { replace 1%R with (INR 1) by reflexivity. apply le_INR. cbn. lia. }
    assert (Hl10 : (0 < log2 10)%R).
    { rewrite <- log2_1. apply log2_lt; lra. }
    rewrite H0 in Hlo. nra.
  - destruct pw as [|c pw']; [now left|right]. apply Hb. discriminate.
Qed.

(** ** Substrings *)

Lemma startswith_spec (s p : str) :
  startswith s p = true <-> exists post, s = p ++ post.
Proof.
  revert s. induction p as [|x p IH]; intros s.
  - destruct s; cbn; split; eauto.
  - destruct s as [|y s]; cbn [startswith app].
    + split; [discriminate|intros [post H]; discriminate].
    + rewrite andb_true_iff, N.eqb_eq, IH. split.
      * intros [-> [post ->]]. now exists post.
      * intros [post H]. injection H as -> ->. eauto.
Qed.

Lemma str_in_spec (sub s : str) :
  str_in sub s = true <-> exists pre post, s = pre ++ sub ++ post.
Proof.
  induction s as [|y s IH]; cbn [str_in]; rewrite orb_true_iff, startswith_spec.
  - split.
    + intros [[post H]|H]; [|discriminate]. now exists [], post.
    + intros (pre & post & H). left.
      destruct pre; [now exists post|discriminate].
  - rewrite IH. split.
    + intros [[post H]|(pre & post & ->)].
      * now exists [], post.
      * now exists (y :: pre), post.
    + intros (pre & post & H). destruct pre as [|z pre].
      * left. now exists post.
      * right. cbn [app] in H. injection H as -> ->. now exists pre, post.
Qed.

(** ** Further properties of has_repeated_runs *)

(** X8: for a run length of one or more, [has_repeated_runs] answers true
    exactly when some character other than the newline stands that many
    times in a row somewhere in the password; with the default, four
    times. *)
Theorem repeated_runs_detected (pw : str) (k : nat) :
  (has_repeated_runs_len pw (S k) = true <->
   exists c pre post, c <> newline /\ pw = pre ++ repeat c (S k) ++ post)
  /\ (has_repeated_runs pw = true <->
      exists c pre post, c <> newline /\ pw = pre ++ repeat c 4 ++ post).
Proof.
  assert (H : forall n,
    has_repeated_runs_len pw (S n) = true <->
    exists c pre post, c <> newline /\ pw = pre ++ repeat c (S n) ++ post).
  { intros n. rewrite has_repeated_runs_len_spec. unfold has_run. split.
    - intros (c & Hc & pre & post & ->). now exists c, pre, post.
    - intros (c & pre & post & Hc & ->). exists c. split; [exact Hc|].
      now exists pre, post. }
  split; [apply H|apply (H 3%nat)].
Qed.

(** X9: a password shorter than four characters never has a repeated run,
    and a repeated run is not lost by writing more characters before or
    after the password. *)
Theorem repeated_runs_closure (pw : str) :
  ((List.length pw < 4)%nat -> has_repeated_runs pw = false)
  /\ (has_repeated_runs pw = true ->
      forall pre post, has_repeated_runs (pre ++ pw ++ post) = true).
Proof.
  split.
  - intros Hlen. destruct (has_repeated_runs pw) eqn:E; [|reflexivity].
    apply has_repeated_runs_spec in E as (c & _ & pre & post & ->).
    rewrite !length_app, repeat_length in Hlen. lia.
  - intros E pre post.
    apply has_repeated_runs_spec in E as (c & Hc & a & b & ->).
    apply has_repeated_runs_spec. exists c. split; [exact Hc|].
    exists (pre ++ a), (b ++ post). now rewrite <- !app_assoc.
Qed.

(** ** Further properties of has_keyboard_pattern *)

Lemma keyboard_patterns_long :
  forallb (fun pat => Nat.leb 4 (List.length pat) && negb (str_eqb pat []))
          KEYBOARD_PATTERNS = true.
Proof. reflexivity. Qed.

(** X10: [has_keyboard_pattern] answers true exactly when one of the eight
    configured patterns that is at least [min_len] long occurs in the
    lowercased password; every pattern has four characters or more, so with
    the default none is filtered out. *)
Theorem keyboard_pattern_detected (pw : str) (min_len : nat) :
  (has_keyboard_pattern_len pw min_len = true <->
   exists pat pre post,
     In pat KEYBOARD_PATTERNS /\ (min_len <= List.length pat)%nat
     /\ lower pw = pre ++ pat ++ post)
  /\ (has_keyboard_pattern pw = true <->
      exists pat pre post,
        In pat KEYBOARD_PATTERNS /\ lower pw = pre ++ pat ++ post).
Proof.
  assert (Hlong : forall pat, In pat KEYBOARD_PATTERNS ->
            (4 <= List.length pat)%nat /\ str_eqb pat [] = false).
  { intros pat Hin.
    pose proof (proj1 (forallb_forall _ _) keyboard_patterns_long pat Hin) as H.
    apply andb_true_iff in H as [H1 H2].
    apply Nat.leb_le in H1. now apply negb_true_iff in H2. }
  assert (H : forall n,
    has_keyboard_pattern_len pw n = true <->
    exists pat pre post,
      In pat KEYBOARD_PATTERNS /\ (n <= List.length pat)%nat
      /\ lower pw = pre ++ pat ++ post).
  { intros n. unfold has_keyboard_pattern_len. rewrite existsb_exists. split.
    - intros (pat & Hin & Hb).
      apply andb_true_iff in Hb as [Hb _].
      apply andb_true_iff in Hb as [Hl Hs].
      apply Nat.leb_le in Hl. apply str_in_spec in Hs as (pre & post & Hs).
      now exists pat, pre, post.
    - intros (pat & pre & post & Hin & Hl & Hs).
      exists pat. split; [exact Hin|].
      destruct (Hlong pat Hin) as [_ Hne]. rewrite Hne.
      rewrite !andb_true_iff. repeat split.
      + now apply Nat.leb_le.
      + apply str_in_spec. now exists pre, post. }
  split; [apply H|].
  unfold has_keyboard_pattern. rewrite H. split.
  - intros (pat & pre & post & Hin & _ & Hs). now exists pat, pre, post.
  - intros (pat & pre & post & Hin & Hs). exists pat, pre, post.
    destruct (Hlong pat Hin) as [Hl _]. auto.
Qed.

(** ** Further properties of has_sequence *)

Lemma existsb_map' {A B} (f : B -> bool) (g : A -> B) (l : list A) :
  existsb f (map g l) = existsb (fun x => f (g x)) l.
Proof. induction l as [|x l IH]; cbn; [reflexivity|now rewrite IH]. Qed.

Lemma existsb_flat_map {A B} (f : B -> bool) (g : A -> list B) (l : list A) :
  existsb f (flat_map g l) = existsb (fun x => existsb f (g x)) l.
Proof.
  induction l as [|x l IH]; cbn [flat_map existsb]; [reflexivity|].
  now rewrite existsb_app, IH.
Qed.

Lemma existsb_pointwise {A} (f g : A -> bool) (l : list A) :
  (forall x, f x = g x) -> existsb f l = existsb g l.
Proof.
  intros H. induction l as [|x l IH]; cbn; [reflexivity|].
  now rewrite H, IH.
Qed.

Lemma has_sequence_chunks (pw : str) (n : nat) :
  has_sequence_len pw n
  = existsb (fun chunk => str_in chunk (lower pw)) (sequence_chunks n).
Proof.
  unfold has_sequence_len, sequence_chunks. rewrite existsb_flat_map.
  apply existsb_pointwise. intros sq.
  unfold chunks_of. now rewrite existsb_app, !existsb_map'.
Qed.

Lemma set_in_spec (x : str) (S : list str) : set_in x S = true <-> In x S.
Proof.
  unfold set_in. rewrite existsb_exists. unfold str_eqb. split.
  - intros (y & Hy & H). destruct (list_eq_dec N.eq_dec x y); [now subst|discriminate].
  - intros H. exists x. split; [exact H|].
    destruct (list_eq_dec N.eq_dec x x); [reflexivity|congruence].
Qed.

Lemma chunks_are_runs : forallb is_step_run (sequence_chunks 4) = true.
Proof. vm_compute. reflexivity. Qed.

Lemma runs_are_chunks :
  forallb (fun a => set_in (ascending_run a) (sequence_chunks 4)
                    && set_in (rev (ascending_run a)) (sequence_chunks 4))
          run_starts = true.
Proof. vm_compute. reflexivity. Qed.

Lemma run_start_listed (a : char) : run_start a = true -> In a run_starts.
Proof.
  unfold run_start, in_range, run_starts.
  rewrite orb_true_iff, !andb_true_iff, !N.leb_le. intros H.
  rewrite <- (N2Nat.id a). apply in_map.
  rewrite in_app_iff, !in_seq. lia.
Qed.

Lemma is_step_run_spec (w : str) :
  is_step_run w = true ->
  exists a, run_start a = true
            /\ (w = ascending_run a \/ w = rev (ascending_run a)).
Proof.
  destruct w as [|a [|b [|c [|d [|e w]]]]]; try discriminate.
  cbn [is_step_run]. rewrite orb_true_iff, !andb_true_iff, !N.eqb_eq.
  intros [[[[Ha ->] ->] ->]|[[[Hd ->] ->] ->]].
  - exists a. split; [exact Ha|now left].
  - exists d. split; [exact Hd|now right].
Qed.

(** X11: [has_sequence] answers true exactly when the lowercased password
    holds four neighbours in a row, ascending or descending, all of them
    letters of a to z or all of them digits. *)
Theorem sequence_detected (pw : str) :
  has_sequence pw = true <->
  exists a pre post,
    run_start a = true
    /\ (lower pw = pre ++ ascending_run a ++ post
        \/ lower pw = pre ++ rev (ascending_run a) ++ post).
Proof.
  unfold has_sequence. rewrite has_sequence_chunks, existsb_exists. split.
  - intros (chunk & Hin & Hs).
    pose proof (proj1 (forallb_forall _ _) chunks_are_runs chunk Hin) as Hr.
    apply is_step_run_spec in Hr as (a & Ha & Hw).
    apply str_in_spec in Hs as (pre & post & Hs).
    exists a, pre, post. split; [exact Ha|].
    destruct Hw as [-> | ->]; auto.
  - intros (a & pre & post & Ha & Hs).
    pose proof (proj1 (forallb_forall _ _) runs_are_chunks a
                  (run_start_listed a Ha)) as Hc.
    apply andb_true_iff in Hc as [Hasc Hdesc].
    apply set_in_spec in Hasc, Hdesc.
    destruct Hs as [Hs|Hs].
    + exists (ascending_run a). split; [exact Hasc|].
      apply str_in_spec. now exists pre, post.
    + exists (rev (ascending_run a)). split; [exact Hdesc|].
      apply str_in_spec. now exists pre, post.
Qed.

(** ** Trimming and lowercasing of ASCII strings *)

Lemma lstrip_all_space (s : str) : forallb isspace s = true -> lstrip s = [].
Proof.
  induction s as [|c s IH]; cbn [forallb lstrip]; [reflexivity|].
  intros H. apply andb_true_iff in H as [Hc Hs]. rewrite Hc. auto.
Qed.

Lemma lstrip_app_spaces (ws s : str) :
  forallb isspace ws = true -> lstrip (ws ++ s) = lstrip s.
Proof.
  induction ws as [|c ws IH]; cbn [forallb lstrip app]; [reflexivity|].
  intros H. apply andb_true_iff in H as [Hc Hs]. rewrite Hc. auto.
Qed.

Lemma lstrip_app_nonspace (a b : str) :
  forallb isspace a = false -> lstrip (a ++ b) = lstrip a ++ b.
Proof.
  induction a as [|c a IH]; cbn [forallb lstrip app]; [discriminate|].
  destruct (isspace c); cbn [andb]; [exact IH|reflexivity].
Qed.

Lemma forallb_rev {A} (p : A -> bool) (l : list A) :
  forallb p (rev l) = forallb p l.
Proof.
  induction l as [|x l IH]; [reflexivity|].
  cbn [rev forallb]. rewrite forallb_app, IH. cbn. now rewrite andb_true_r, andb_comm.
Qed.

Lemma rstrip_app_spaces (s ws : str) :
  forallb isspace ws = true -> rstrip (s ++ ws) = rstrip s.
Proof.
  intros H. unfold rstrip. rewrite rev_app_distr, lstrip_app_spaces; [reflexivity|].
  now rewrite forallb_rev.
Qed.

Lemma strip_padding (ws pw ws' : str) :
  forallb isspace ws = true -> forallb isspace ws' = true ->
  strip (ws ++ pw ++ ws') = strip pw.
Proof.
  intros H H'. unfold strip. rewrite lstrip_app_spaces by assumption.
  destruct (forallb isspace pw) eqn:E.
  - rewrite lstrip_app_spaces, !lstrip_all_space by assumption. reflexivity.
  - rewrite lstrip_app_nonspace by assumption.
    now apply rstrip_app_spaces.
Qed.

Lemma strip_nonspace (s : str) :
  forallb (fun c => negb (isspace c)) s = true -> strip s = s.
Proof.
  assert (Hl : forall t, forallb (fun c => negb (isspace c)) t = true ->
                         lstrip t = t).
  { intros [|c t]; cbn [forallb lstrip]; [reflexivity|].
    intros H. apply andb_true_iff in H as [Hc _].
    apply negb_true_iff in Hc. now rewrite Hc. }
  intros H. unfold strip, rstrip. rewrite (Hl s H), Hl, rev_involutive.
  - reflexivity.
  - now rewrite forallb_rev.
Qed.

Lemma lower_from_ascii (whole : str) (i : nat) (s : str) :
  forallb (fun c => N.ltb c 128) s = true ->
  lower_from whole i s = map ascii_lower s.
Proof.
  revert i. induction s as [|c s IH]; intros i; cbn [forallb lower_from map];
    [reflexivity|].
  intros H. apply andb_true_iff in H as [Hc Hs]. rewrite Hc, IH by assumption.
  reflexivity.
Qed.

Lemma lower_ascii (s : str) :
  forallb (fun c => N.ltb c 128) s = true -> lower s = map ascii_lower s.
Proof. apply lower_from_ascii. Qed.

Lemma letter_or_digit_plain (c : char) :
  is_letter c || is_digit c = true ->
  N.ltb c 128 = true /\ isspace c = false.
Proof.
  unfold is_letter, is_lower, is_upper, is_digit, isspace, in_range.
  rewrite !orb_true_iff, !andb_true_iff, !N.leb_le. intros H.
  assert (Hlt : N.ltb c 128 = true) by (apply N.ltb_lt; lia).
  rewrite Hlt. split; [reflexivity|].
  rewrite !orb_false_iff, !andb_false_iff, !N.leb_gt, N.eqb_neq. lia.
Qed.

Lemma letters_digits_plain (s : str) :
  forallb (fun c => is_letter c || is_digit c) s = true ->
  forallb (fun c => N.ltb c 128) s = true
  /\ forallb (fun c => negb (isspace c)) s = true.
Proof.
  induction s as [|c s IH]; cbn [forallb]; [auto|].
  intros H. apply andb_true_iff in H as [Hc Hs].
  destruct (letter_or_digit_plain c Hc) as [H1 H2], (IH Hs) as [H3 H4].
  rewrite H1, H2, H3, H4. auto.
Qed.

Lemma forallb_weaken {A} (p q : A -> bool) (l : list A) :
  (forall x, p x = true -> q x = true) ->
  forallb p l = true -> forallb q l = true.
Proof.
  intros Hpq. rewrite !forallb_forall. auto.
Qed.

(** ** Further properties of looks_like_common_password *)

(** X12: white space written before or after a password does not change
    whether it looks common. *)
Theorem common_password_ignores_padding (ws pw ws' : str) :
  forallb isspace ws = true -> forallb isspace ws' = true ->
  looks_like_common_password (ws ++ pw ++ ws')
  = looks_like_common_password pw.
Proof.
  intros H H'. unfold looks_like_common_password.
  now rewrite strip_padding.
Qed.

(** X13: a common password made of letters is caught in any mix of upper
    and lower case, bare or followed by up to four digits. *)
Theorem common_password_variations (base digits : str) :
  base <> [] -> forallb is_letter base = true ->
  set_in (map ascii_lower base) COMMON_PASSWORDS = true ->
  forallb is_digit digits = true -> (List.length digits <= 4)%nat ->
  looks_like_common_password (base ++ digits) = true.
Proof.
  intros Hne Hletters Hin Hdigits Hlen.
  assert (Hb : forallb (fun c => is_letter c || is_digit c) base = true).
  { eapply forallb_weaken; [|exact Hletters]. intros x ->. reflexivity. }
  assert (Hd : forallb (fun c => is_letter c || is_digit c) digits = true).
  { eapply forallb_weaken; [|exact Hdigits]. intros x ->. apply orb_true_r. }
  assert (Hall : forallb (fun c => is_letter c || is_digit c) (base ++ digits)
                 = true) by now rewrite forallb_app, Hb, Hd.
  destruct (letters_digits_plain _ Hall) as [Hascii Hns].
  destruct (letters_digits_plain _ Hb) as [Hbascii _].
  apply looks_like_common_password_spec.
  rewrite strip_nonspace by assumption. unfold common_match.
  destruct digits as [|d ds].
  - left. rewrite app_nil_r, lower_ascii by assumption. exact Hin.
  - right. left. exists base, (d :: ds).
    rewrite lower_ascii by assumption.
    repeat split; auto. cbn [List.length]. lia.
Qed.

(** ** Further properties of score_password: the score *)

Lemma class_count_positive (pw : str) : pw <> [] -> 1 <= class_count pw <= 4.
Proof.
  destruct pw as [|c pw']; [congruence|intros _].
  pose proof (char_classified c) as Hc.
  unfold class_count, has_lower, has_upper, has_digit, has_other.
  cbn [existsb].
  destruct (is_lower c), (is_upper c), (is_digit c), (is_other c);
    try discriminate; cbn [orb];
    destruct (existsb is_lower pw'), (existsb is_upper pw'),
      (existsb is_digit pw'), (existsb is_other pw'); cbn; lia.
Qed.

Lemma penalty_of_values (a b c : bool) :
  penalty_of a b c = 0 /\ a = false /\ b = false /\ c = false
  \/ 6 <= penalty_of a b c.
Proof. destruct a, b, c; cbn; auto; right; lia. Qed.

(** X14: a non-empty password on which no penalty check fires scores at
    least 10: 5 points for its length and 5 for the one class it has at the
    least. *)
Theorem score_without_penalty (pw : str) :
  pw <> [] -> looks_like_common_password pw = false ->
  has_repeated_runs pw = false -> has_keyboard_pattern pw = false ->
  10 <= score (score_password pw).
Proof.
  intros Hne Hc Hr Hk. rewrite score_eq by assumption.
  unfold raw_score, penalties. rewrite Hc, Hr, Hk, variety_points_eq.
  change (penalty_of false false false) with 0.
  pose proof (length_points_range (len pw)).
  pose proof (class_count_positive pw Hne).
  pose proof (entropy_points_bounds _ (combined_entropy_nonneg pw)).
  unfold clamp. lia.
Qed.

(** X22: the label is "Very Weak" for the empty password and for no other;
    a non-empty password is labelled "Strong" when its score is below 80
    and "Very Strong" otherwise. *)
Theorem label_cases (pw : str) :
  (label (score_password pw) = "Very Weak"%string <-> pw = [])
  /\ (label (score_password pw) = "Strong"%string
      <-> pw <> [] /\ score (score_password pw) < 80)
  /\ (label (score_password pw) = "Very Strong"%string
      <-> pw <> [] /\ 80 <= score (score_password pw)).
Proof.
  destruct pw as [|c pw'].
  - cbn. repeat split; try discriminate; try tauto; intros [H _]; congruence.
  - assert (Hne : c :: pw' <> []) by discriminate.
    rewrite label_eq by assumption. unfold final_label.
    destruct (Z.ltb_spec (score (score_password (c :: pw'))) 80);
      repeat split; try discriminate; try assumption; try lia;
      intros [_ H']; try lia; reflexivity.
Qed.

(** X23: on ASCII passwords the keyboard and sequence checks do not see
    the case of letters: two passwords that agree once lowercased get the
    same answers. *)
Theorem pattern_checks_ignore_case (pw pw' : str) :
  forallb (fun c => N.ltb c 128) pw = true ->
  forallb (fun c => N.ltb c 128) pw' = true ->
  map ascii_lower pw = map ascii_lower pw' ->
  has_keyboard_pattern pw = has_keyboard_pattern pw'
  /\ has_sequence pw = has_sequence pw'.
Proof.
  intros H H' E.
  unfold has_keyboard_pattern, has_keyboard_pattern_len, has_sequence,
    has_sequence_len.
  rewrite (lower_ascii pw H), (lower_ascii pw' H'), E. auto.
Qed.

(** ** Further properties of score_password: the feedback *)

Lemma in_length_feedback (n : Z) (x : string) :
  In x (length_feedback n) <->
  (n < 8 /\ x = "Too short: aim for at least 12-16 characters."%string)
  \/ (8 <= n < 12 /\ x = "Decent length, but 12-16+ is better."%string).
Proof.
  unfold length_feedback.
  destruct (Z.ltb_spec n 8), (Z.ltb_spec n 12); cbn [In];
    intuition (try lia; auto).
Qed.

Lemma in_variety_feedback (used : list string) (x : string) :
  In x (variety_feedback used) <->
  (name_in "lowercase" used = false
   /\ x = "add lowercase letters to increase variety."%string)
  \/ (name_in "uppercase" used = false
      /\ x = "Add uppercase letters to increase variety."%string)
  \/ (name_in "digits" used = false
      /\ x = "Add digits to increase variety."%string)
  \/ (name_in "symbols" used = false
      /\ x = "Add symbols(e.g., !@#$) to increase variety."%string).
Proof.
  unfold variety_feedback. rewrite !in_app_iff.
  destruct (name_in "lowercase" used), (name_in "uppercase" used),
    (name_in "digits" used), (name_in "symbols" used); cbn [In];
    intuition (try discriminate; auto).
Qed.

Lemma in_penalty_feedback (a b c : bool) (x : string) :
  In x (penalty_feedback a b c) <->
  (a = true /\ x = common_feedback) \/ (b = true /\ x = repeated_feedback)
  \/ (c = true /\ x = keyboard_feedback).
Proof.
  unfold penalty_feedback. rewrite !in_app_iff.
  destruct a, b, c; cbn [In]; intuition (try discriminate; auto).
Qed.

Lemma in_step_feedback (pw : str) (x : string) :
  In x (step_feedback pw) <->
  In x (length_feedback (len pw))
  \/ In x (variety_feedback (used_sets pw))
  \/ In x (penalty_feedback (looks_like_common_password pw)
             (has_repeated_runs pw) (has_keyboard_pattern pw)).
Proof. unfold step_feedback. now rewrite !in_app_iff. Qed.

Lemma in_finish_feedback_iff (fb : list string) (s : Z) (x : string) :
  In x (finish_feedback fb s) <->
  In x fb \/ (fb = [] /\ 80 <= s /\ x = great_feedback).
Proof.
  destruct fb as [|y fb]; cbn [finish_feedback].
  - destruct (Z.leb_spec 80 s); cbn [In]; intuition (try lia; auto).
  - intuition discriminate.
Qed.

Lemma step_feedback_nil (pw : str) :
  step_feedback pw = [] <->
  12 <= len pw /\ has_lower pw = true /\ has_upper pw = true
  /\ has_digit pw = true /\ has_other pw = true
  /\ looks_like_common_password pw = false
  /\ has_repeated_runs pw = false /\ has_keyboard_pattern pw = false.
Proof.
  unfold step_feedback, length_feedback, variety_feedback, penalty_feedback.
  destruct (used_sets_names pw) as (-> & -> & -> & ->).
  destruct (Z.ltb_spec (len pw) 8), (Z.ltb_spec (len pw) 12),
    (has_lower pw), (has_upper pw), (has_digit pw), (has_other pw),
    (looks_like_common_password pw), (has_repeated_runs pw),
    (has_keyboard_pattern pw); cbn [app];
    (split; intros Hx;
     [try discriminate Hx; repeat split; (reflexivity || lia)
     |try reflexivity;
      destruct Hx as (? & ? & ? & ? & ? & ? & ? & ?);
      (discriminate || lia)]).
Qed.

Lemma detectors_empty :
  looks_like_common_password [] = false /\ has_repeated_runs [] = false
  /\ has_keyboard_pattern [] = false.
Proof. repeat split. Qed.

(** X17: the length lines.  "Password is empty" is returned for the empty
    password only; "Too short" for a non-empty password of fewer than 8
    characters and no other; "Decent length" for 8 to 11 characters and no
    other. *)
Theorem length_lines (pw : str) :
  (In "Password is empty"%string (feedback (score_password pw)) <-> pw = [])
  /\ (In "Too short: aim for at least 12-16 characters."%string
         (feedback (score_password pw))
      <-> pw <> [] /\ len pw < 8)
  /\ (In "Decent length, but 12-16+ is better."%string
         (feedback (score_password pw))
      <-> 8 <= len pw < 12).
Proof.
  destruct pw as [|c pw'].
  - cbn [score_password feedback In].
    repeat split; try tauto; intros; other_line;
      try congruence; cbn in *; lia.
  - assert (Hne : c :: pw' <> []) by discriminate.
    rewrite feedback_eq by assumption.
    rewrite !in_finish_feedback_iff, !in_step_feedback, !in_length_feedback,
      !in_variety_feedback, !in_penalty_feedback.
    repeat split; intros; other_line; pick.
Qed.

(** X18: the variety lines.  Each "add ..." line is returned for a
    non-empty password that has no character of that class, and for no
    other. *)
Theorem variety_lines (pw : str) :
  (In "add lowercase letters to increase variety."%string
      (feedback (score_password pw))
   <-> pw <> [] /\ has_lower pw = false)
  /\ (In "Add uppercase letters to increase variety."%string
         (feedback (score_password pw))
      <-> pw <> [] /\ has_upper pw = false)
  /\ (In "Add digits to increase variety."%string
         (feedback (score_password pw))
      <-> pw <> [] /\ has_digit pw = false)
  /\ (In "Add symbols(e.g., !@#$) to increase variety."%string
         (feedback (score_password pw))
      <-> pw <> [] /\ has_other pw = false).
Proof.
  destruct pw as [|c pw'].
  - cbn [score_password feedback In].
    repeat split; intros; other_line; congruence.
  - assert (Hne : c :: pw' <> []) by discriminate.
    rewrite feedback_eq by assumption.
    rewrite !in_finish_feedback_iff, !in_step_feedback, !in_length_feedback,
      !in_variety_feedback, !in_penalty_feedback.
    destruct (used_sets_names (c :: pw')) as (-> & -> & -> & ->).
    repeat split; intros; other_line; pick.
Qed.

(** X19: the penalty lines.  The common-password line, the repeated
    characters line and the keyboard line are returned exactly when the
    check of that name answers true. *)
Theorem penalty_lines (pw : str) :
  (In common_feedback (feedback (score_password pw))
   <-> looks_like_common_password pw = true)
  /\ (In repeated_feedback (feedback (score_password pw))
      <-> has_repeated_runs pw = true)
  /\ (In keyboard_feedback (feedback (score_password pw))
      <-> has_keyboard_pattern pw = true).
Proof.
  destruct pw as [|c pw'].
  - destruct detectors_empty as (E1 & E2 & E3).
    rewrite E1, E2, E3.
    cbn [score_password feedback In].
    repeat split; intros; other_line; discriminate.
  - assert (Hne : c :: pw' <> []) by discriminate.
    rewrite feedback_eq by assumption.
    rewrite !in_finish_feedback_iff, !in_step_feedback, !in_length_feedback,
      !in_variety_feedback, !in_penalty_feedback.
    repeat split; intros; other_line; pick.
Qed.

(** X16: the congratulation is returned only on its own, and exactly for
    the passwords that score 80 or more, have all four classes and set off
    no penalty check. *)
Theorem great_line (pw : str) :
  (In great_feedback (feedback (score_password pw))
   <-> feedback (score_password pw) = [great_feedback])
  /\ (feedback (score_password pw) = [great_feedback]
      <-> 80 <= score (score_password pw)
          /\ has_lower pw = true /\ has_upper pw = true
          /\ has_digit pw = true /\ has_other pw = true
          /\ looks_like_common_password pw = false
          /\ has_repeated_runs pw = false
          /\ has_keyboard_pattern pw = false).
Proof.
  destruct pw as [|c pw'].
  - cbn [score_password feedback score In].
    repeat split; intros; other_line; try discriminate; lia.
  - set (pw := c :: pw') in *.
    assert (Hne : pw <> []) by discriminate.
    assert (Hlen : 80 <= score (score_password pw) -> 12 <= len pw).
    { rewrite score_eq by assumption. unfold clamp, raw_score, penalties.
      pose proof (variety_points_range pw).
      pose proof (entropy_points_bounds _ (combined_entropy_nonneg pw)).
      pose proof (penalty_of_range (looks_like_common_password pw)
                    (has_repeated_runs pw) (has_keyboard_pattern pw)).
      unfold length_points.
      destruct (Z.ltb_spec (len pw) 8), (Z.ltb_spec (len pw) 12); lia. }
    rewrite feedback_eq by assumption.
    pose proof (step_feedback_nil pw) as Hnil.
    destruct (step_feedback pw) as [|l ls] eqn:Es; cbn [finish_feedback].
    + destruct (Z.leb_spec 80 (score (score_password pw))) as [Hs|Hs].
      * split; [cbn; tauto|].
        split; [intros _|reflexivity].
        destruct (proj1 Hnil eq_refl) as (_ & H). auto.
      * split; [cbn; intuition discriminate|].
        split; [discriminate|]. intros [H _]. lia.
    + assert (Hno : ~ In great_feedback (l :: ls)).
      { rewrite <- Es, in_step_feedback, in_length_feedback,
          in_variety_feedback, in_penalty_feedback.
        intros H. other_line. }
      split.
      * split; [contradiction|]. intros H. rewrite H in Hno.
        exfalso. apply Hno. now left.
      * split.
        -- intros H. rewrite H in Hno. exfalso. apply Hno. now left.
        -- intros (Hs & H). exfalso.
           assert (E : l :: ls = []) by (apply Hnil; auto).
           discriminate.
Qed.

(** X20: [score_password] returns no feedback at all exactly for the
    passwords of 12 or more characters with all four classes and no
    penalty check firing that score below 80. *)
Theorem feedback_empty_iff (pw : str) :
  feedback (score_password pw) = [] <->
  12 <= len pw /\ score (score_password pw) < 80
  /\ has_lower pw = true /\ has_upper pw = true
  /\ has_digit pw = true /\ has_other pw = true
  /\ looks_like_common_password pw = false
  /\ has_repeated_runs pw = false /\ has_keyboard_pattern pw = false.
Proof.
  destruct pw as [|c pw'].
  - cbn [score_password feedback len List.length]. split; [discriminate|].
    intros [H _]. cbn in H. lia.
  - set (pw := c :: pw') in *.
    assert (Hne : pw <> []) by discriminate.
    rewrite feedback_eq by assumption.
    pose proof (step_feedback_nil pw) as Hnil.
    destruct (step_feedback pw) as [|l ls]; cbn [finish_feedback].
    + destruct (proj1 Hnil eq_refl) as (Hl & H).
      destruct (Z.leb_spec 80 (score (score_password pw))).
      * split; [discriminate|]. intros (_ & Hs & _). lia.
      * split; [intros _; auto|reflexivity].
    + split; [discriminate|]. intros (Hl & _ & H).
      assert (E : l :: ls = []) by (apply Hnil; auto).
      discriminate.
Qed.

Lemma subsequence_In (sub full : list string) :
  subsequence sub full = true -> forall x, In x sub -> In x full.
Proof.
  revert sub. induction full as [|y full IH]; intros [|x sub] H z Hz;
    cbn [subsequence] in H; try discriminate; try contradiction.
  destruct (String.eqb_spec x y) as [->|Hne].
  - destruct Hz as [<-|Hz]; [now left|right; eauto].
  - right. eauto.
Qed.

Lemma subsequence_NoDup (sub full : list string) :
  NoDup full -> subsequence sub full = true -> NoDup sub.
Proof.
  intros Hnd. revert sub. induction Hnd as [|y full Hy Hnd IH];
    intros [|x sub] H; cbn [subsequence] in H; try discriminate;
    try apply NoDup_nil.
  destruct (String.eqb_spec x y) as [->|Hne].
  - constructor; [|now apply IH].
    intros Hin. apply Hy. eapply subsequence_In; eauto.
  - now apply IH.
Qed.

Lemma feedback_lines_NoDup : NoDup feedback_lines.
Proof.
  unfold feedback_lines.
  repeat (constructor;
          [cbn [In]; intros H;
           repeat (destruct H as [H|H]; [vm_compute in H; discriminate H|]);
           exact H|]).
  constructor.
Qed.

Lemma variety_feedback_length (pw : str) :
  Z.of_nat (List.length (variety_feedback (used_sets pw)))
  = 4 - class_count pw.
Proof.
  unfold variety_feedback, class_count.
  destruct (used_sets_names pw) as (-> & -> & -> & ->).
  destruct (has_lower pw), (has_upper pw), (has_digit pw), (has_other pw);
    reflexivity.
Qed.

(** X21: the feedback lines always come in the order of the checks, no
    line twice, and never more than seven of them. *)
Theorem feedback_in_order (pw : str) :
  subsequence (feedback (score_password pw)) feedback_lines = true
  /\ NoDup (feedback (score_password pw))
  /\ (List.length (feedback (score_password pw)) <= 7)%nat.
Proof.
  assert (Hsub : subsequence (feedback (score_password pw)) feedback_lines
                 = true).
  { destruct pw as [|c pw']; [reflexivity|].
    rewrite feedback_eq by discriminate.
    generalize (score (score_password (c :: pw'))). intros s.
    unfold step_feedback, length_feedback, variety_feedback,
      penalty_feedback.
    destruct (len (c :: pw') <? 8), (len (c :: pw') <? 12),
      (name_in "lowercase" (used_sets (c :: pw'))),
      (name_in "uppercase" (used_sets (c :: pw'))),
      (name_in "digits" (used_sets (c :: pw'))),
      (name_in "symbols" (used_sets (c :: pw'))),
      (looks_like_common_password (c :: pw')),
      (has_repeated_runs (c :: pw')), (has_keyboard_pattern (c :: pw'));
      cbn [app finish_feedback]; try destruct (80 <=? s);
      vm_compute; reflexivity. }
  split; [exact Hsub|]. split.
  - eapply subsequence_NoDup; [apply feedback_lines_NoDup|exact Hsub].
  - destruct pw as [|c pw']; [cbn; lia|].
    assert (Hne : c :: pw' <> []) by discriminate.
    rewrite feedback_eq by assumption.
    pose proof (variety_feedback_length (c :: pw')) as Hv.
    pose proof (class_count_positive _ Hne) as Hc.
    assert (Hstep : (List.length (step_feedback (c :: pw')) <= 7)%nat).
    { unfold step_feedback. rewrite !length_app.
      assert (Hl : (List.length (length_feedback (len (c :: pw'))) <= 1)%nat).
      { unfold length_feedback.
        destruct (len (c :: pw') <? 8), (len (c :: pw') <? 12); cbn; lia. }
      assert (Hp : (List.length
                      (penalty_feedback
                         (looks_like_common_password (c :: pw'))
                         (has_repeated_runs (c :: pw'))
                         (has_keyboard_pattern (c :: pw'))) <= 3)%nat).
      { destruct (looks_like_common_password (c :: pw')),
          (has_repeated_runs (c :: pw')), (has_keyboard_pattern (c :: pw'));
          cbn; lia. }
      lia. }
    destruct (step_feedback (c :: pw')); cbn [finish_feedback].
    + destruct (80 <=? score (score_password (c :: pw'))); cbn; lia.
    + exact Hstep.
Qed.

(** ** The engine over any arithmetic: the shape of the result *)

Lemma score_password_in_unfold (a : arith) (pw : str) :
  pw <> [] ->
  score_password_in a pw =
  mkStrengthResultIn (clamp (raw_score_in a pw))
                     (final_label (clamp (raw_score_in a pw)))
                     (combined_entropy_in a pw)
                     (finish_feedback (step_feedback pw)
                                      (clamp (raw_score_in a pw))).
Proof.
  intros Hne. destruct pw as [|c pw']; [congruence|].
  set (pw := c :: pw') in *.
  unfold score_password_in, raw_score_in, step_feedback, penalties,
    variety_points, used_sets, final_label, clamp, combined_entropy_in,
    entropy_points_in.
  fold pw.
  destruct (detect_charsets pw) as [cs us]; cbn [snd].
  generalize (py_min_in a (shannon_entropy_bits_in a pw)
                (estimated_search_space_entropy_bits_in a pw)); intros e.
  cbv zeta.
  generalize (if f_lt a (f_mul a (f_div a e (f_of_int a 80)) (f_of_int a 25))
                   (f_of_int a 25)
              then f_int a (f_mul a (f_div a e (f_of_int a 80))
                              (f_of_int a 25))
              else 25); intros ep.
  generalize (Z.min 20 (Z.of_nat (List.length us) * 5)); intros vp.
  unfold length_points, length_feedback, variety_feedback, penalty_of,
    penalty_feedback.
  change
    "Great password. Consider using a password manager to generate/store unique passwords."%string
    with great_feedback.
  destruct (len pw <? 8); [|destruct (len pw <? 12); [|destruct (len pw <? 16)]];
  destruct (looks_like_common_password pw), (has_repeated_runs pw),
    (has_keyboard_pattern pw);
  lazy beta iota delta [fst snd pw];
  rewrite finish_feedback_eq, !if_negb_app, ?Z.add_0_l, ?Z.add_0_r;
  cbn [app]; rewrite <- ?app_assoc, ?app_nil_r; reflexivity.
Qed.

Lemma score_in_eq (a : arith) (pw : str) :
  pw <> [] -> score_in (score_password_in a pw) = clamp (raw_score_in a pw).
Proof. intros H. now rewrite score_password_in_unfold. Qed.

Lemma label_in_eq (a : arith) (pw : str) :
  pw <> [] ->
  label_in (score_password_in a pw)
  = final_label (score_in (score_password_in a pw)).
Proof. intros H. now rewrite score_password_in_unfold. Qed.


Lemma feedback_in_eq (a : arith) (pw : str) :
  pw <> [] ->
  feedback_in (score_password_in a pw)
  = finish_feedback (step_feedback pw) (score_in (score_password_in a pw)).
Proof. intros H. now rewrite score_password_in_unfold. Qed.

(** ** The real numbers as one arithmetic

    Over [real_arith] the engine is the real-number model of this file. *)

Lemma fold_left_pointwise {A B} (f g : A -> B -> A) (l : list B) (x : A) :
  (forall acc y, f acc y = g acc y) -> fold_left f l x = fold_left g l x.
Proof.
  intros H. revert x. induction l as [|y l IH]; intros x; cbn; [reflexivity|].
  now rewrite H, IH.
Qed.

Lemma shannon_in_real (pw : str) :
  shannon_entropy_bits_in real_arith pw = shannon_entropy_bits pw.
Proof.
  destruct pw as [|c pw']; [reflexivity|].
  unfold shannon_entropy_bits_in, shannon_entropy_bits, len.
  cbv beta iota zeta. cbn [real_arith f_zero f_mul f_sub f_log2 f_true_div
                             f_of_int num].
  rewrite <- INR_IZR_INZ. f_equal.
  apply fold_left_pointwise. intros acc k. now rewrite <- INR_IZR_INZ.
Qed.

Lemma search_space_in_real (pw : str) :
  estimated_search_space_entropy_bits_in real_arith pw
  = estimated_search_space_entropy_bits pw.
Proof.
  unfold estimated_search_space_entropy_bits_in,
    estimated_search_space_entropy_bits, len.
  destruct (detect_charsets pw) as [cs us].
  cbn [real_arith f_zero f_mul f_log2 f_of_int num].
  now rewrite <- INR_IZR_INZ.
Qed.

Lemma py_min_in_real (x y : R) : py_min_in real_arith x y = py_min x y.
Proof.
  unfold py_min_in, py_min. cbn [real_arith f_lt].
  destruct (Rlt_dec y x); reflexivity.
Qed.

Lemma combined_entropy_in_real (pw : str) :
  combined_entropy_in real_arith pw = combined_entropy pw.
Proof.
  unfold combined_entropy_in, combined_entropy.
  now rewrite py_min_in_real, shannon_in_real, search_space_in_real.
Qed.

Lemma entropy_points_in_real (e : R) :
  entropy_points_in real_arith e = entropy_points e.
Proof.
  unfold entropy_points_in, entropy_points, py_min.
  cbn [real_arith f_lt f_mul f_div f_of_int f_int].
  destruct (Rlt_dec (e / 80 * 25) 25); [reflexivity|].
  symmetry. apply py_int_IZR.
Qed.

Lemma raw_score_in_real (pw : str) : raw_score_in real_arith pw = raw_score pw.
Proof.
  unfold raw_score_in, raw_score.
  now rewrite entropy_points_in_real, combined_entropy_in_real.
Qed.

Lemma score_password_in_real (pw : str) :
  score_in (score_password_in real_arith pw) = score (score_password pw)
  /\ label_in (score_password_in real_arith pw) = label (score_password pw)
  /\ entropy_bits_in (score_password_in real_arith pw)
     = entropy_bits (score_password pw)
  /\ feedback_in (score_password_in real_arith pw)
     = feedback (score_password pw).
Proof.
  destruct pw as [|c pw']; [repeat split|].
  assert (Hne : c :: pw' <> []) by discriminate.
  rewrite score_password_in_unfold, score_password_unfold by assumption.
  cbn [score_in label_in entropy_bits_in feedback_in score label entropy_bits
         feedback].
  now rewrite raw_score_in_real, combined_entropy_in_real.
Qed.

(** ** The frequency table and the distinct characters *)










(** ** Sequence detection and the result *)

Lemma shannon_in_counts (a : arith) (pw pw' : str) :
  List.length pw = List.length pw' ->
  map snd (char_freq pw) = map snd (char_freq pw') ->
  shannon_entropy_bits_in a pw = shannon_entropy_bits_in a pw'.
Proof.
  intros Hl Hc. unfold shannon_entropy_bits_in, len.
  destruct pw as [|c pw], pw' as [|c' pw'']; try discriminate;
    [reflexivity|].
  cbv beta iota zeta. now rewrite Hl, Hc.
Qed.

Lemma score_password_in_signals (a : arith) (pw pw' : str) :
  len pw = len pw' ->
  detect_charsets pw = detect_charsets pw' ->
  shannon_entropy_bits_in a pw = shannon_entropy_bits_in a pw' ->
  looks_like_common_password pw = looks_like_common_password pw' ->
  has_repeated_runs pw = has_repeated_runs pw' ->
  has_keyboard_pattern pw = has_keyboard_pattern pw' ->
  score_password_in a pw = score_password_in a pw'.
Proof.
  intros Hl Hd Hs Hc Hr Hk.
  destruct pw as [|c pw], pw' as [|c' pw'']; try discriminate Hl;
    [reflexivity|].
  rewrite !score_password_in_unfold by discriminate.
  assert (He : combined_entropy_in a (c :: pw)
               = combined_entropy_in a (c' :: pw'')).
  { unfold combined_entropy_in, estimated_search_space_entropy_bits_in.
    now rewrite Hs, Hd, Hl. }
  assert (Hraw : raw_score_in a (c :: pw) = raw_score_in a (c' :: pw'')).
  { unfold raw_score_in, variety_points, used_sets, penalties.
    now rewrite He, Hl, Hd, Hc, Hr, Hk. }
  assert (Hfb : step_feedback (c :: pw) = step_feedback (c' :: pw'')).
  { unfold step_feedback, used_sets. now rewrite Hl, Hd, Hc, Hr, Hk. }
  now rewrite He, Hraw, Hfb.
Qed.

(** C5: the result of [score_password] does not depend on sequence
    detection.  In whatever arithmetic the floats are computed, two
    passwords with the same length, the same classes, the same
    frequency-based estimate and the same answers of the three penalty
    checks get the same result, whatever [has_sequence] says of them:
    "abcd" holds a sequence and "abdc" holds none, and their results are
    equal.  Every feedback line returned is one of the eleven lines of the
    source, none of which is about sequences. *)
Theorem score_password_ignores_sequences (a : arith) :
  (forall pw pw' : str,
      len pw = len pw' ->
      detect_charsets pw = detect_charsets pw' ->
      shannon_entropy_bits_in a pw = shannon_entropy_bits_in a pw' ->
      looks_like_common_password pw = looks_like_common_password pw' ->
      has_repeated_runs pw = has_repeated_runs pw' ->
      has_keyboard_pattern pw = has_keyboard_pattern pw' ->
      score_password_in a pw = score_password_in a pw')
  /\ (has_sequence (lit "abcd") = true
      /\ has_sequence (lit "abdc") = false
      /\ score_password_in a (lit "abcd") = score_password_in a (lit "abdc"))
  /\ (forall (pw : str) (line : string),
        In line (feedback_in (score_password_in a pw)) ->
        In line feedback_lines).
Proof.
  split; [intros pw pw'; apply score_password_in_signals|]. split.
  - split; [vm_compute; reflexivity|]. split; [vm_compute; reflexivity|].
    apply score_password_in_signals; vm_compute; reflexivity.
  - intros pw line. destruct pw as [|c pw'].
    + cbn. intuition.
    + rewrite feedback_in_eq by discriminate. intros H.
      apply in_finish_feedback in H. destruct H as [H| ->].
      * now apply step_feedback_lines in H.
      * cbn. tauto.
Qed.

(** ** What "Very Strong" takes *)

Lemma real_int_below_25 (x : R) :
  f_lt real_arith x (f_of_int real_arith 25) = true ->
  f_int real_arith x < 25.
Proof.
  cbn [real_arith f_lt f_of_int f_int].
  destruct (Rlt_dec x 25) as [Hx|]; [intros _|discriminate].
  unfold py_int. destruct (Rle_dec 0 x) as [H0|H0].
  - destruct (base_Int_part x) as [Hi _].
    apply lt_IZR. lra.
  - assert (H : 0 <= Int_part (- x)).
    { rewrite <- (Int_part_IZR 0). apply Int_part_mono. lra. }
    lia.
Qed.

(** X15: what "Very Strong" takes, in any arithmetic whose [int] sends a
    float below 25 to an integer below 25: at least 16 characters, at least
    three of the four classes, no penalty check firing, and 20 entropy
    points or more. *)
Theorem very_strong_requires (a : arith) (pw : str) :
  (forall x, f_lt a x (f_of_int a 25) = true -> f_int a x < 25) ->
  label_in (score_password_in a pw) = "Very Strong"%string ->
  16 <= len pw /\ 3 <= class_count pw
  /\ looks_like_common_password pw = false
  /\ has_repeated_runs pw = false /\ has_keyboard_pattern pw = false
  /\ 20 <= entropy_points_in a (combined_entropy_in a pw).
Proof.
  intros Hint Hl. destruct pw as [|c pw']; [discriminate|].
  set (pw := c :: pw') in *.
  assert (Hne : pw <> []) by discriminate.
  rewrite label_in_eq, score_in_eq in Hl by assumption.
  unfold final_label in Hl.
  destruct (Z.ltb_spec (clamp (raw_score_in a pw)) 80) as [|Hs];
    [discriminate|].
  clear Hl. unfold clamp, raw_score_in, penalties in Hs.
  rewrite variety_points_eq in Hs.
  pose proof (class_count_positive pw Hne) as Hcc.
  assert (He : entropy_points_in a (combined_entropy_in a pw) <= 25).
  { unfold entropy_points_in. cbv zeta.
    destruct (f_lt a _ _) eqn:E; [|lia].
    apply Hint in E. lia. }
  destruct (penalty_of_values (looks_like_common_password pw)
              (has_repeated_runs pw) (has_keyboard_pattern pw))
    as [(Hp & -> & -> & ->)|Hp];
    unfold length_points in Hs;
    destruct (Z.ltb_spec (len pw) 8), (Z.ltb_spec (len pw) 12),
      (Z.ltb_spec (len pw) 16);
    try change (penalty_of false false false) with 0 in Hs;
    lia.
Qed.

End Engine.

(** * The engine on ASCII inputs

    The theorems above at concrete passwords, with the plain Unicode
    tables. *)

(** C4 read with only the first way trimmed fails on " admin1": the code
    trims before the second check and reports a match; none of the three
    ways, the last two read on the untrimmed string, applies. *)
Lemma common_match_untrimmed_fails :
  ~ (looks_like_common_password plain_lower plain_isspace (lit " admin1") = true
     <-> common_match_untrimmed plain_lower plain_isspace (lit " admin1")).
Proof.
  intros [H _].
  assert (Hm : looks_like_common_password plain_lower plain_isspace
                 (lit " admin1") = true) by (vm_compute; reflexivity).
  destruct (H Hm) as [Ha|[Hb|Hc]].
  - vm_compute in Ha. discriminate.
  - destruct Hb as (ls & ds & Heq & Hne & Hls & _).
    destruct ls as [|l ls]; [congruence|].
    change (lit " admin1") with (32%N :: lit "admin1") in Heq.
    cbn [app] in Heq. injection Heq as <- _.
    cbn in Hls. discriminate.
  - vm_compute in Hc. discriminate.
Qed.

Lemma common_password_match_witness :
  In common_feedback
     (feedback (score_password plain_lower plain_isspace (lit "password"))).
Proof.
  apply (proj2 (proj2 (proj2 (proj2
           (common_password_match plain_lower plain_isspace
              (lit "password")))))).
  vm_compute. reflexivity.
Defined.

Lemma score_monotone_witness :
  score (score_password plain_lower plain_isspace (lit "hello"))
  <= score (score_password plain_lower plain_isspace (lit "hello" ++ lit "W7")).
Proof.
  apply (score_monotone plain_lower plain_isspace (lit "hello") (lit "W7"));
    vm_compute; reflexivity.
Defined.

Lemma score_at_most_85_witness :
  80 <= score (score_password plain_lower plain_isspace
                 (lit "aB3$cD5^eF7&gH9*")) <= 85.
Proof.
  apply (proj2 (proj2
           (score_at_most_85 plain_lower plain_isspace
              (lit "aB3$cD5^eF7&gH9*")))).
  exact (proj2 (sixteen_distinct_score plain_lower plain_isspace)).
Defined.

Lemma mid_length_password_without_feedback_witness :
  feedback (score_password plain_lower plain_isspace (lit "Gx7!mPq2#Lw9")) = []
  /\ score (score_password plain_lower plain_isspace (lit "Gx7!mPq2#Lw9"))
     <= 77.
Proof.
  apply (proj1 (mid_length_password_without_feedback
                  plain_lower plain_isspace) (lit "Gx7!mPq2#Lw9"));
    vm_compute; try reflexivity.
  split; [discriminate|reflexivity].
Defined.

(** * Further properties at concrete passwords *)

Lemma detect_charsets_Permutation_witness :
  detect_charsets (lit "a1") = detect_charsets (lit "1a").
Proof.
  apply (detect_charsets_Permutation (lit "a1") (lit "1a")).
  vm_compute. apply perm_swap.
Defined.

Lemma common_password_ignores_padding_witness :
  looks_like_common_password plain_lower plain_isspace
    (lit " " ++ lit "admin" ++ [newline])
  = looks_like_common_password plain_lower plain_isspace (lit "admin").
Proof.
  apply (common_password_ignores_padding plain_lower plain_isspace
           (lit " ") (lit "admin") [newline]); reflexivity.
Defined.

Lemma common_password_variations_witness :
  looks_like_common_password plain_lower plain_isspace
    (lit "QwErTy" ++ lit "2024") = true.
Proof.
  apply (common_password_variations plain_lower plain_isspace
           (lit "QwErTy") (lit "2024")).
  - cbv. discriminate.
  - reflexivity.
  - vm_compute. reflexivity.
  - reflexivity.
  - cbn. lia.
Defined.

Lemma score_without_penalty_witness :
  10 <= score (score_password plain_lower plain_isspace (lit "hello")).
Proof.
  apply (score_without_penalty plain_lower plain_isspace (lit "hello")).
  - cbv. discriminate.
  - vm_compute. reflexivity.
  - vm_compute. reflexivity.
  - vm_compute. reflexivity.
Defined.

Lemma pattern_checks_ignore_case_witness :
  has_keyboard_pattern plain_lower (lit "QWERTY")
  = has_keyboard_pattern plain_lower (lit "qwerty")
  /\ has_sequence plain_lower (lit "QWERTY")
     = has_sequence plain_lower (lit "qwerty").
Proof.
  apply (pattern_checks_ignore_case plain_lower (lit "QWERTY")
           (lit "qwerty")); reflexivity.
Defined.

(** * The engine over the reals as an arithmetic *)

Lemma score_password_ignores_sequences_witness :
  has_sequence plain_lower (lit "Wxyz7") = true
  /\ has_sequence plain_lower (lit "Wxzy7") = false
  /\ score_password_in plain_lower plain_isspace real_arith (lit "Wxyz7")
     = score_password_in plain_lower plain_isspace real_arith (lit "Wxzy7").
Proof.
  split; [vm_compute; reflexivity|]. split; [vm_compute; reflexivity|].
  apply (proj1 (score_password_ignores_sequences plain_lower plain_isspace
                  real_arith) (lit "Wxyz7") (lit "Wxzy7"));
    try apply shannon_in_counts; vm_compute; reflexivity.
Defined.


Lemma very_strong_requires_witness :
  16 <= len (lit "aB3$cD5^eF7&gH9*")
  /\ 3 <= class_count (lit "aB3$cD5^eF7&gH9*")
  /\ looks_like_common_password plain_lower plain_isspace
       (lit "aB3$cD5^eF7&gH9*") = false
  /\ has_repeated_runs (lit "aB3$cD5^eF7&gH9*") = false
  /\ has_keyboard_pattern plain_lower (lit "aB3$cD5^eF7&gH9*") = false
  /\ 20 <= entropy_points_in real_arith
             (combined_entropy_in real_arith (lit "aB3$cD5^eF7&gH9*")).
Proof.
  apply (very_strong_requires plain_lower plain_isspace real_arith
           (lit "aB3$cD5^eF7&gH9*")).
  - exact real_int_below_25.
  - rewrite (proj1 (proj2 (score_password_in_real plain_lower plain_isspace
                             (lit "aB3$cD5^eF7&gH9*")))).
    exact (proj2 (sixteen_distinct_score plain_lower plain_isspace)).
Defined.
